(** * umaten web UI: job queue, usage tracker and job runner

    A shallow embedding of [web_ui.py]: the module-level globals
    ([job_queue], [job_status], [token_usage], [settings], [active_jobs])
    become one record that is threaded through the functions; the three
    collaborators ([RestaurantScraper], [ArticleGenerator],
    [WordPressPublisher]) and [socketio.emit] are oracles whose outcome for
    one run is given by an environment record.

    Conventions.
    - A [datetime] is the number of microseconds since some epoch (the
      resolution of [datetime]); [timedelta.total_seconds() >= 60] is
      [60 * 1000000 <= now - ts].
    - Python [int] is [Z]; Python [float] (only the cost accumulators) is
      modelled by exact rationals [Q], rounding is not modelled.
    - Python [str] is [string], the bytes of its UTF-8 encoding; [len] is
      [String.length] (exact on ASCII text; it only enters the token
      estimates handed to [record_token_usage]). *)

From Stdlib Require Import Ascii ZArith QArith Lia String List.
From stdpp Require Import base option list gmap strings pretty.

Local Open Scope string_scope.
Local Open Scope Z_scope.

(** ** Data model *)

(** The four accumulators of one entry of [token_usage]. *)
Record counters := Counters {
  c_input : Z;
  c_output : Z;
  c_cost : Q;
  c_count : Z
}.

(** ['minute'], ['hour'] and ['day'] carry a ['timestamp']; ['total'] has
    none. *)
Record window := Window {
  w_counters : counters;
  w_timestamp : Z
}.

(** [token_usage]: a dict with the four fixed keys. *)
Record usage := Usage {
  u_minute : window;
  u_hour : window;
  u_day : window;
  u_total : counters
}.

Definition zero_counters : counters := Counters 0 0 0%Q 0.

(** [{'input': 0, 'output': 0, 'cost': 0, 'count': 0, 'timestamp': now}] *)
Definition fresh_window (now : Z) : window := Window zero_counters now.

(** The module-level initial value of [token_usage], every
    [datetime.now()] of the literal taken as [now]. *)
Definition token_usage_init (now : Z) : usage :=
  Usage (fresh_window now) (fresh_window now) (fresh_window now)
        zero_counters.

(** [(now - x['timestamp']).total_seconds() >= secs] *)
Definition elapsed_ge (now : Z) (x : window) (secs : Z) : bool :=
  secs * 1000000 <=? now - w_timestamp x.

(** One [if] of [reset_token_stats_if_needed]. *)
Definition reset_if (now secs : Z) (x : window) : window :=
  if elapsed_ge now x secs then fresh_window now else x.

Definition reset_token_stats_if_needed (now : Z) (u : usage) : usage :=
  Usage (reset_if now 60 (u_minute u))
        (reset_if now 3600 (u_hour u))
        (reset_if now 86400 (u_day u))
        (u_total u).

(** The body of the [for period in ...] loop of [record_token_usage]. *)
Definition add_usage (input_tokens output_tokens : Z) (cost : Q)
    (c : counters) : counters :=
  Counters (c_input c + input_tokens) (c_output c + output_tokens)
           (c_cost c + cost)%Q (c_count c + 1).

Definition add_usage_w (input_tokens output_tokens : Z) (cost : Q)
    (x : window) : window :=
  Window (add_usage input_tokens output_tokens cost (w_counters x))
         (w_timestamp x).

(** [record_token_usage], with [now] the [datetime.now()] read by the reset
    it starts with. *)
Definition record_token_usage (now : Z) (input_tokens output_tokens : Z)
    (cost : Q) (u : usage) : usage :=
  let u := reset_token_stats_if_needed now u in
  Usage (add_usage_w input_tokens output_tokens cost (u_minute u))
        (add_usage_w input_tokens output_tokens cost (u_hour u))
        (add_usage_w input_tokens output_tokens cost (u_day u))
        (add_usage input_tokens output_tokens cost (u_total u)).

(** [settings] *)
Record settings_t := Settings {
  articles_per_hour : Z;
  auto_publish : bool;
  concurrent_jobs : Z
}.

Definition settings_init : settings_t := Settings 10 false 3.

(** A value of the request JSON that the code passes to [int()], as [int()]
    sees it: [IntLike z] when [int(v)] is [z] (an integer, a numeric
    string), [NotInt] when [int(v)] raises [ValueError] or [TypeError]. *)
Inductive raw_int := IntLike (z : Z) | NotInt.

(** An entry of [job_queue]. [category_ids] is [None] for "decide at
    publish time". *)
Record job := Job {
  job_id : string;
  job_url : string;
  job_category_ids : option (list raw_int)
}.

Inductive status := Queued | Processing | Completed | Error.

(** [job_status[job_id]['result']] *)
Record result_t := Result {
  post_id : Z;
  post_url : string;
  restaurant_name : string;
  article_generation_failed : bool
}.

(** [job_status[job_id]]. The keys ['warning'], ['error'] and ['result']
    are absent until they are assigned. *)
Record job_state := JobState {
  js_job_id : string;
  js_url : string;
  js_status : status;
  js_progress : Z;
  js_current_step : string;
  js_created_at : string;
  js_warning : option string;
  js_error : option string;
  js_result : option result_t
}.

(** The dict returned by [scrape_tabelog], reduced to the keys [process_job]
    reads. [r_rating] is [str()] of the float, [None] when the page shows no
    rating; [r_repr] is [str(restaurant_data)]. *)
Record restaurant := Restaurant {
  r_name : string;
  r_category : list string;
  r_rating : option string;
  r_address : string;
  r_photo_count : Z;
  r_images : list string;
  r_repr : string
}.

(** [article_data]. The dict built by [generate_article] has all the keys;
    the fallback dict of [process_job] has no ['restaurant_name'],
    ['source_url'] or ['category']. *)
Record article := Article {
  a_seo_title : string;
  a_html_content : string;
  a_slug : string;
  a_tags : list string;
  a_meta_description : string;
  a_restaurant_name : option string;
  a_source_url : option string;
  a_category : option string
}.

(** The post returned by the publisher (the REST response). *)
Record post := Post {
  p_id : Z;
  p_link : string
}.

(** An exception, known by its [str(e)]. *)
Inductive exn := Exception (msg : string).

Definition str_exn (e : exn) : string := let 'Exception msg := e in msg.

(** [str(KeyError(key))] is the repr of the key. *)
Definition KeyError (key : string) : exn := Exception ("'" +:+ key +:+ "'").

Inductive outcome (A : Type) := Returns (a : A) | Raises (e : exn).
Arguments Returns {A} a.
Arguments Raises {A} e.

(** Calls that leave [web_ui.py], in program order; an [EvEmit] also says
    what the call raised. [EvRecord] logs the calls of
    [record_token_usage]. *)
Inductive event :=
| EvEmit (snapshot : job_state) (raised : option exn)
| EvScrape (url : string)
| EvGenerate (r : restaurant)
| EvRecord (input_tokens output_tokens : Z) (cost : Q)
| EvCreatePost (title content slug : string) (category_ids : list Z)
    (tags : list string) (meta_description seo_title : string)
    (post_status : string)
| EvPublishArticle (a : article) (r : restaurant) (post_status : string).

(** The globals of the module, and the log of calls. *)
Record world := World {
  job_queue : list job;
  job_status : gmap string job_state;
  token_usage : usage;
  settings : settings_t;
  active_jobs : Z;
  calls : list event
}.

(** ** Field updates *)

Definition with_job_status (f : gmap string job_state → gmap string job_state)
    (w : world) : world :=
  World (job_queue w) (f (job_status w)) (token_usage w) (settings w)
        (active_jobs w) (calls w).

Definition with_token_usage (f : usage → usage) (w : world) : world :=
  World (job_queue w) (job_status w) (f (token_usage w)) (settings w)
        (active_jobs w) (calls w).

Definition with_settings (s : settings_t) (w : world) : world :=
  World (job_queue w) (job_status w) (token_usage w) s
        (active_jobs w) (calls w).

Definition with_active_jobs (f : Z → Z) (w : world) : world :=
  World (job_queue w) (job_status w) (token_usage w) (settings w)
        (f (active_jobs w)) (calls w).

Definition with_job_queue (f : list job → list job) (w : world) : world :=
  World (f (job_queue w)) (job_status w) (token_usage w) (settings w)
        (active_jobs w) (calls w).

Definition log_call (e : event) (w : world) : world :=
  World (job_queue w) (job_status w) (token_usage w) (settings w)
        (active_jobs w) (calls w ++ [e])%list.

Definition set_status (x : status) (s : job_state) : job_state :=
  JobState (js_job_id s) (js_url s) x (js_progress s) (js_current_step s)
           (js_created_at s) (js_warning s) (js_error s) (js_result s).

Definition set_progress (x : Z) (s : job_state) : job_state :=
  JobState (js_job_id s) (js_url s) (js_status s) x (js_current_step s)
           (js_created_at s) (js_warning s) (js_error s) (js_result s).

Definition set_current_step (x : string) (s : job_state) : job_state :=
  JobState (js_job_id s) (js_url s) (js_status s) (js_progress s) x
           (js_created_at s) (js_warning s) (js_error s) (js_result s).

Definition set_warning (x : string) (s : job_state) : job_state :=
  JobState (js_job_id s) (js_url s) (js_status s) (js_progress s)
           (js_current_step s) (js_created_at s) (Some x) (js_error s)
           (js_result s).

Definition set_error (x : string) (s : job_state) : job_state :=
  JobState (js_job_id s) (js_url s) (js_status s) (js_progress s)
           (js_current_step s) (js_created_at s) (js_warning s) (Some x)
           (js_result s).

Definition set_result (x : result_t) (s : job_state) : job_state :=
  JobState (js_job_id s) (js_url s) (js_status s) (js_progress s)
           (js_current_step s) (js_created_at s) (js_warning s) (js_error s)
           (Some x).

(** ** The monad of a running thread: shared globals and exceptions *)

Definition M (A : Type) : Type := world → outcome A * world.

Definition ret {A} (a : A) : M A := fun w => (Returns a, w).

Definition raise {A} (e : exn) : M A := fun w => (Raises e, w).

Definition bind {A B} (m : M A) (k : A → M B) : M B :=
  fun w =>
    match m w with
    | (Returns a, w') => k a w'
    | (Raises e, w') => (Raises e, w')
    end.

(** [try: m except Exception as e: h e]. What [m] did to the globals before
    it raised stays done. *)
Definition try_except {A} (m : M A) (h : exn → M A) : M A :=
  fun w =>
    match m w with
    | (Returns a, w') => (Returns a, w')
    | (Raises e, w') => h e w'
    end.

(** [try: m finally: f], for an [f] that does not raise. *)
Definition try_finally {A} (m : M A) (f : world → world) : M A :=
  fun w => let '(r, w') := m w in (r, f w').

Definition modify (f : world → world) : M unit := fun w => (Returns tt, f w).

Definition gets {A} (f : world → A) : M A := fun w => (Returns (f w), w).

#[global] Instance M_ret : MRet M := @ret.
#[global] Instance M_bind : MBind M := λ A B k m, bind m k.

(** [job_status[job_id][field] = value]: [KeyError] when the job has no
    entry. *)
Definition update_status (job_id : string) (f : job_state → job_state)
    : M unit :=
  fun w =>
    match job_status w !! job_id with
    | Some s => (Returns tt, with_job_status (insert job_id (f s)) w)
    | None => (Raises (KeyError job_id), w)
    end.

(** ** The collaborators of one run of [process_job] *)

Record env := Env {
  (** what the [n]-th [socketio.emit] statement of [process_job] raises *)
  emit_raises : nat → option exn;
  (** what [RestaurantScraper(config)] raises *)
  scraper_init : option exn;
  (** [scraper.scrape_tabelog(url)]; [Returns None] is the empty dict *)
  scrape_result : outcome (option restaurant);
  (** what [ArticleGenerator(config)] or [load_html_template()] raises *)
  generator_setup : option exn;
  (** [generator.generate_article(restaurant_data, html_template)] *)
  generate_result : outcome article;
  (** what [WordPressPublisher(config)] raises *)
  publisher_init : option exn;
  (** [publisher.create_post(...)] or [publisher.publish_article(...)];
      [Returns None] is [None] *)
  publish_result : outcome (option post);
  (** [datetime.now()] inside [record_token_usage] *)
  record_now : Z
}.

Definition of_outcome {A} (r : outcome A) : M A := fun w => (r, w).

Definition may_raise (o : option exn) : M unit :=
  match o with
  | Some e => raise e
  | None => ret tt
  end.

(** [job_status[job_id]] *)
Definition get_status (job_id : string) : M job_state :=
  fun w =>
    match job_status w !! job_id with
    | Some s => (Returns s, w)
    | None => (Raises (KeyError job_id), w)
    end.

(** [socketio.emit('job_update', job_status[job_id])] *)
Definition emit (ev : env) (n : nat) (job_id : string) : M unit :=
  s ← get_status job_id;
  modify (log_call (EvEmit s (emit_raises ev n))) ;;
  may_raise (emit_raises ev n).

(** ** [process_job] *)

Definition nl : string := String (Ascii.ascii_of_nat 10) EmptyString.
Definition sp20 : string := "                    ".
Definition sp16 : string := "                ".

(** [restaurant_data.get('rating', '不明')] inside an f-string: the key is
    always there, a missing rating prints as [None]. *)
Definition fmt_rating (rd : restaurant) : string :=
  match r_rating rd with
  | Some s => s
  | None => "None"
  end.

(** The dict built in the [except] branch around the generation. *)
Definition fallback_article (rd : restaurant) : article :=
  Article
    (r_name rd)
    (nl +:+ sp20 +:+ "<h2>" +:+ r_name rd +:+ "</h2>" +:+ nl
     +:+ sp20 +:+ "<p><strong>住所:</strong> " +:+ r_address rd +:+ "</p>" +:+ nl
     +:+ sp20 +:+ "<p><strong>評価:</strong> " +:+ fmt_rating rd +:+ "</p>" +:+ nl
     +:+ sp20 +:+ "<p><strong>カテゴリ:</strong> "
       +:+ String.concat ", " (r_category rd) +:+ "</p>" +:+ nl
     +:+ sp20 +:+ "<p><em>※ 記事生成に失敗したため、基本情報のみ掲載しています。</em></p>" +:+ nl
     +:+ sp16)
    EmptyString
    []
    (r_name rd +:+ " - " +:+ r_address rd)
    None None None.

(** [(input_tokens / 1_000_000) * 3 + (output_tokens / 1_000_000) * 15] *)
Definition token_cost (input_tokens output_tokens : Z) : Q :=
  ((inject_Z input_tokens / 1000000) * 3
   + (inject_Z output_tokens / 1000000) * 15)%Q.

Definition len (s : string) : Z := Z.of_nat (String.length s).

(** The loop that fills [category_ids_int]: an id on which [int()] raises is
    logged and left out. *)
Fixpoint category_ids_int (category_ids : list raw_int) : list Z :=
  match category_ids with
  | [] => []
  | IntLike z :: rest => z :: category_ids_int rest
  | NotInt :: rest => category_ids_int rest
  end.

(** The call made to the publisher in step 3: [create_post] when
    [category_ids and len(category_ids) > 0], else [publish_article]. *)
Definition publish_call (category_ids : option (list raw_int))
    (article_data : article) (restaurant_data : restaurant)
    (post_status : string) : event :=
  match category_ids with
  | Some ((_ :: _) as ids) =>
      EvCreatePost (a_seo_title article_data) (a_html_content article_data)
        (a_slug article_data) (category_ids_int ids) (a_tags article_data)
        (a_meta_description article_data) (a_seo_title article_data)
        post_status
  | _ => EvPublishArticle article_data restaurant_data post_status
  end.

(** Step 1, up to the photo check. *)
Definition fetch_stage (ev : env) (url : string) : M restaurant :=
  may_raise (scraper_init ev) ;;
  modify (log_call (EvScrape url)) ;;
  restaurant_data ← of_outcome (scrape_result ev);
  match restaurant_data with
  | None => raise (Exception "店舗情報の取得に失敗しました")
  | Some rd =>
      if String.eqb (r_name rd) EmptyString then
        raise (Exception "店舗情報の取得に失敗しました")
      else if r_photo_count rd <? 4 then
        raise (Exception ("写真が不足しています（ナビゲーション表示: "
                          +:+ pretty (r_photo_count rd)
                          +:+ "枚）。最低4枚必要です。"))
      else ret rd
  end.

(** Step 2: the inner [try] and its [except]. The result is
    [(article_data, article_generation_failed, generation_error)]. *)
Definition generate_stage (ev : env) (rd : restaurant)
    : M (article * bool * string) :=
  try_except
    (may_raise (generator_setup ev) ;;
     modify (log_call (EvGenerate rd)) ;;
     article_data ← of_outcome (generate_result ev);
     let input_tokens := len (r_repr rd) / 4 in
     let output_tokens := len (a_html_content article_data) / 4 in
     let cost := token_cost input_tokens output_tokens in
     modify (log_call (EvRecord input_tokens output_tokens cost)) ;;
     modify (with_token_usage
               (record_token_usage (record_now ev)
                                   input_tokens output_tokens cost)) ;;
     ret (article_data, false, EmptyString))
    (fun gen_error =>
       ret (fallback_article rd, true, str_exn gen_error)).

(** Step 3, up to the check of [post]. *)
Definition publish_stage (ev : env) (category_ids : option (list raw_int))
    (article_data : article) (rd : restaurant) : M post :=
  may_raise (publisher_init ev) ;;
  auto ← gets (fun w => auto_publish (settings w));
  let post_status := if auto : bool then "publish" else "draft" in
  modify (log_call (publish_call category_ids article_data rd post_status)) ;;
  p ← of_outcome (publish_result ev);
  match p with
  | None => raise (Exception "WordPress投稿に失敗しました")
  | Some p => ret p
  end.

(** The body of the outer [try]. *)
Definition process_job_try (ev : env) (job_id url : string)
    (category_ids : option (list raw_int)) : M unit :=
  update_status job_id (set_status Processing) ;;
  update_status job_id (set_progress 10) ;;
  emit ev 1 job_id ;;
  update_status job_id (set_current_step "スクレイピング中...") ;;
  update_status job_id (set_progress 20) ;;
  emit ev 2 job_id ;;
  rd ← fetch_stage ev url;
  update_status job_id (set_progress 40) ;;
  emit ev 3 job_id ;;
  update_status job_id (set_current_step "記事生成中...") ;;
  update_status job_id (set_progress 50) ;;
  emit ev 4 job_id ;;
  '(article_data, failed, generation_error) ← generate_stage ev rd;
  update_status job_id (set_progress 70) ;;
  emit ev 5 job_id ;;
  update_status job_id (set_current_step "WordPress投稿中...") ;;
  update_status job_id (set_progress 80) ;;
  emit ev 6 job_id ;;
  p ← publish_stage ev category_ids article_data rd;
  update_status job_id (set_status Completed) ;;
  update_status job_id (set_progress 100) ;;
  (if failed : bool then
     update_status job_id
       (set_current_step "完了（記事生成失敗、基本情報のみ投稿）") ;;
     update_status job_id
       (set_warning ("記事生成に失敗しました: " +:+ generation_error))
   else
     update_status job_id (set_current_step "完了")) ;;
  update_status job_id
    (set_result (Result (p_id p) (p_link p) (r_name rd) failed)) ;;
  emit ev 7 job_id.

(** The outer [except Exception as e]. *)
Definition process_job_except (ev : env) (job_id : string) (e : exn)
    : M unit :=
  update_status job_id (set_status Error) ;;
  update_status job_id (set_error (str_exn e)) ;;
  emit ev 8 job_id.

(** [with processing_lock: active_jobs -= 1] *)
Definition release_slot (w : world) : world :=
  with_active_jobs (fun n => n - 1) w.

Definition process_job (ev : env) (job_id url : string)
    (category_ids : option (list raw_int)) : M unit :=
  try_finally
    (try_except (process_job_try ev job_id url category_ids)
                (process_job_except ev job_id))
    release_slot.

(** ** [submit_jobs]: the part that builds and enqueues one job *)

(** The [if / elif / else] that decides [job_category_ids] (the same text in
    the list-page branch and in the single-URL branch).
    [url_specific_cats] is [url_data.get('category_ids')], [category_ids]
    and [use_auto_category] are the fields of the whole request. *)
Definition resolve_category_ids (url_specific_cats : option (list raw_int))
    (use_auto_category : bool) (category_ids : list raw_int)
    : option (list raw_int) :=
  match url_specific_cats with
  | Some ((_ :: _) as cats) => Some cats
  | _ =>
      match use_auto_category, category_ids with
      | false, _ :: _ => Some category_ids
      | _, _ => None
      end
  end.

(** The duplicate check: some entry of [job_status] has this url. *)
Definition is_duplicate (url : string) (js : gmap string job_state) : bool :=
  existsb (fun s => String.eqb (js_url s) url) (map snd (map_to_list js)).

(** [f"job_{int(time.time() * 1000)}_{len(job_queue)}"] *)
Definition make_job_id (now_ms : Z) (queue_len : nat) : string :=
  "job_" +:+ pretty now_ms +:+ "_" +:+ pretty queue_len.

(** [job_queue.append(job)] *)
Definition enqueue (j : job) (w : world) : world :=
  with_job_queue (fun q => (q ++ [j])%list) w.

(** [job_status[job_id] = {... 'status': 'queued', 'progress': 0, ...}] *)
Definition register (j : job) (created_at : string) (w : world) : world :=
  with_job_status
    (insert (job_id j)
       (JobState (job_id j) (job_url j) Queued 0 "待機中..." created_at
                 None None None)) w.

(** One (normalised, not a list page) url of a request: skipped when it is a
    duplicate, else a job is built, appended to the queue and registered. *)
Definition submit_url (now_ms : Z) (created_at : string) (url : string)
    (url_specific_cats : option (list raw_int)) (use_auto_category : bool)
    (category_ids : list raw_int) (w : world) : world :=
  if is_duplicate url (job_status w) then w
  else
    let j := Job (make_job_id now_ms (length (job_queue w))) url
               (resolve_category_ids url_specific_cats use_auto_category
                                     category_ids) in
    register j created_at (enqueue j w).

(** ** [manage_settings], method POST *)

(** [request.json], reduced to the three keys read. A key is absent
    ([None]) or present; [bool()] never raises, so ['auto_publish'] is kept
    as its truth value. *)
Record settings_patch := Patch {
  pa_articles_per_hour : option raw_int;
  pa_auto_publish : option bool;
  pa_concurrent_jobs : option raw_int
}.

(** [int(data.get(key, default))] *)
Definition int_or_default (v : option raw_int) (default : Z) : option Z :=
  match v with
  | None => Some default
  | Some (IntLike z) => Some z
  | Some NotInt => None
  end.

(** The three assignments in order; the first [int()] that raises ends the
    request with ['success': False], and what was assigned before stays.
    [data = None] is a request without a JSON object ([data.get] raises). *)
Definition manage_settings_post (data : option settings_patch)
    (s : settings_t) : bool * settings_t :=
  match data with
  | None => (false, s)
  | Some d =>
      match int_or_default (pa_articles_per_hour d) 10 with
      | None => (false, s)
      | Some aph =>
          let s := Settings aph (auto_publish s) (concurrent_jobs s) in
          let s := Settings (articles_per_hour s)
                     (default false (pa_auto_publish d))
                     (concurrent_jobs s) in
          match int_or_default (pa_concurrent_jobs d) 3 with
          | None => (false, s)
          | Some cj =>
              (true, Settings (articles_per_hour s) (auto_publish s) cj)
          end
      end
  end.

(** ** [process_queue] and the threads around it

    The threads of the process interleave at the granularity of the
    statements below: each read of a global by the supervising loop is one
    action, the block under [processing_lock] is one action.  A job handed
    to the executor runs [process_job] as one action: the only thing it
    shares with the loop's locked block is [active_jobs], which it touches
    once, under the same lock. *)

(** Where the supervising loop is inside its [while True] body. *)
Inductive loop_pc :=
| Sleeping                             (* at [time.sleep(0.5)] *)
| GotRate (articles_per_hour : Z)      (* has read [settings] *)
| RateChecked                          (* [hour_count] was below the limit *)
| AtLock (concurrent_limit : Z).       (* about to take [processing_lock] *)

(** One [executor.submit]: the job, the [concurrent_limit] the loop held and
    [active_jobs] right after its increment. *)
Record dispatch := Dispatch {
  d_job : job;
  d_limit : Z;
  d_active : Z
}.

Record sys := Sys {
  globals : world;
  pc : loop_pc;
  (** jobs submitted to the executor whose [process_job] has not ended *)
  pool : list job;
  (** every [executor.submit] so far, oldest first *)
  dispatched : list dispatch
}.

(** The block under [with processing_lock] in [process_queue]. *)
Definition locked_block (concurrent_limit : Z) (s : sys) : sys :=
  let w := globals s in
  match job_queue w with
  | j :: rest =>
      if active_jobs w <? concurrent_limit then
        let w := with_active_jobs (fun n => n + 1)
                   (with_job_queue (fun _ => rest) w) in
        Sys w Sleeping (pool s ++ [j])%list
            (dispatched s ++ [Dispatch j concurrent_limit (active_jobs w)])%list
      else Sys w Sleeping (pool s) (dispatched s)
  | [] => Sys w Sleeping (pool s) (dispatched s)
  end.

(** The next action of the supervising loop. *)
Definition loop_step (s : sys) : sys :=
  let w := globals s in
  match pc s with
  | Sleeping =>
      Sys w (GotRate (articles_per_hour (settings w))) (pool s) (dispatched s)
  | GotRate aph =>
      let hour_count := c_count (w_counters (u_hour (token_usage w))) in
      if aph <=? hour_count
      then Sys w Sleeping (pool s) (dispatched s)
      else Sys w RateChecked (pool s) (dispatched s)
  | RateChecked =>
      Sys w (AtLock (concurrent_jobs (settings w))) (pool s) (dispatched s)
  | AtLock concurrent_limit => locked_block concurrent_limit s
  end.

(** The [i]-th job of the pool runs [process_job] with collaborators [ev]
    and leaves the pool. An exception that leaves [process_job] stays in the
    future. *)
Definition finish_job (i : nat) (ev : env) (s : sys) : sys :=
  match pool s !! i with
  | Some j =>
      let w := (process_job ev (job_id j) (job_url j) (job_category_ids j)
                            (globals s)).2 in
      Sys w (pc s) (delete i (pool s)) (dispatched s)
  | None => s
  end.

Definition on_globals (f : world → world) (s : sys) : sys :=
  Sys (f (globals s)) (pc s) (pool s) (dispatched s).

(** The actions of the threads. [WriteSettings] stands for any assignment to
    [settings] (each of the three of [manage_settings] is one). *)
Inductive action :=
| LoopStep
| Finish (i : nat) (ev : env)
| Enqueue (j : job)
| AddStatus (j : job) (created_at : string)
| WriteSettings (st : settings_t)
| StatsRequest (now : Z).

Definition step (s : sys) (a : action) : sys :=
  match a with
  | LoopStep => loop_step s
  | Finish i ev => finish_job i ev s
  | Enqueue j => on_globals (enqueue j) s
  | AddStatus j created_at => on_globals (register j created_at) s
  | WriteSettings st => on_globals (with_settings st) s
  | StatsRequest now =>
      on_globals (with_token_usage (reset_token_stats_if_needed now)) s
  end.

Definition exec (acts : list action) (s : sys) : sys := foldl step s acts.

(** The process right after start: the module-level values of the globals
    (with [st] for [settings]), nothing in flight. *)
Definition init_world (now : Z) (st : settings_t) : world :=
  World [] ∅ (token_usage_init now) st 0 [].

Definition init_sys (now : Z) (st : settings_t) : sys :=
  Sys (init_world now st) Sleeping [] [].

(** One pass through the loop body when the rate check lets it through. *)
Definition tick : list action := [LoopStep; LoopStep; LoopStep; LoopStep].

(** * Vocabulary of the statements, and concrete runs *)

(** [m] changes neither [active_jobs], [job_queue] nor [settings]. *)
Definition frames {A} (m : M A) : Prop :=
  ∀ w, active_jobs (m w).2 = active_jobs w
       ∧ job_queue (m w).2 = job_queue w
       ∧ settings (m w).2 = settings w.

(** [active_jobs] counts the jobs handed to the executor that have not
    ended. *)
Definition counted (s : sys) : Prop :=
  active_jobs (globals s) = Z.of_nat (length (pool s)).

(** Every dispatch left [active_jobs] within the limit the loop held. *)
Definition dispatches_within_limit (s : sys) : Prop :=
  Forall (λ d, d_active d ≤ d_limit d) (dispatched s).

(** While [settings['concurrent_jobs']] is [c]: the limit the loop holds is
    [c] and [active_jobs] is at most [c]. *)
Definition capped (c : Z) (s : sys) : Prop :=
  concurrent_jobs (settings (globals s)) = c
  ∧ active_jobs (globals s) ≤ c
  ∧ match pc s with AtLock c' => c' = c | _ => True end.

(** The action does not change [settings['concurrent_jobs']] from [c]. *)
Definition keeps_cap (c : Z) (a : action) : Prop :=
  match a with
  | WriteSettings st => concurrent_jobs st = c
  | _ => True
  end.

(** The rate check lets the loop through. *)
Definition rate_open (w : world) : Prop :=
  c_count (w_counters (u_hour (token_usage w))) < articles_per_hour (settings w).

(** [n] passes of the loop. *)
Fixpoint ticks (n : nat) : list action :=
  match n with
  | O => []
  | S n => tick ++ ticks n
  end.

(** One hour, in microseconds. *)
Definition hour_us : Z := 3600 * 1000000.

(** The hour window holds ten completions counted from time 0; a job
    waits; settings are the defaults (ten articles per hour). *)
Definition stale_usage : usage :=
  Usage (fresh_window 0) (Window (Counters 40 60 0%Q 10) 0) (fresh_window 0)
        (Counters 40 60 0%Q 10).

Definition waiting_job : job := Job "job_1_0" "https://example.test/r/1/" None.

Definition stale_world : world :=
  World [waiting_job] ∅ stale_usage settings_init 0 [].


(** The message of the exception raised for a photo count below four. *)
Definition photo_error (photo_count : Z) : string :=
  "写真が不足しています（ナビゲーション表示: " +:+ pretty photo_count
  +:+ "枚）。最低4枚必要です。".

Definition no_record_error : string := "店舗情報の取得に失敗しました".

(** The fetch returns nothing usable (an empty dict, or a record whose name
    is empty) or a record with fewer than four photos; [msg] is the message
    [process_job] raises for it. *)
Definition fetch_rejected (ev : env) (msg : string) : Prop :=
  match scrape_result ev with
  | Returns None => msg = no_record_error
  | Returns (Some rd) =>
      (r_name rd = EmptyString ∧ msg = no_record_error)
      ∨ (r_name rd ≠ EmptyString ∧ r_photo_count rd < 4
         ∧ msg = photo_error (r_photo_count rd))
  | Raises _ => False
  end.

(** How many calls of the log satisfy [f]. *)
Definition count_calls (f : event → bool) (l : list event) : nat :=
  length (List.filter f l).

Definition is_record (e : event) : bool :=
  match e with EvRecord _ _ _ => true | _ => false end.

Definition is_generate (e : event) : bool :=
  match e with EvGenerate _ => true | _ => false end.

Definition is_publish (e : event) : bool :=
  match e with
  | EvCreatePost _ _ _ _ _ _ _ _ | EvPublishArticle _ _ _ => true
  | _ => false
  end.

Definition is_scrape (e : event) : bool :=
  match e with EvScrape _ => true | _ => false end.

(** An [emit] that raised. *)
Definition emit_raised (e : event) : bool :=
  match e with EvEmit _ (Some _) => true | _ => false end.

Definition demo_url : string := "https://example.test/r/1/".

Definition demo_restaurant : restaurant :=
  Restaurant "Sushi Ichi" ["sushi"; "seafood"] (Some "3.58") "Tokyo 1-2-3" 12
             [] "{'name': 'Sushi Ichi'}".

Definition demo_article : article :=
  Article "Sushi Ichi | umaten" "<h1>Sushi Ichi</h1>" "sushi-ichi" ["sushi"]
          "A sushi bar" (Some "Sushi Ichi") (Some demo_url) (Some "restaurant").

Definition demo_post : post := Post 41 "https://wp.example.test/?p=41".

Definition demo_job : job := Job "job_1_0" demo_url None.

Definition demo_state : job_state :=
  JobState "job_1_0" demo_url Queued 0 "待機中..." "2024-01-01T00:00:00"
           None None None.

(** The job is registered and dispatched: one job in flight. *)
Definition demo_world : world :=
  World [] {["job_1_0" := demo_state]} (token_usage_init 0) settings_init 1 [].

(** Every collaborator works. *)
Definition env_ok : env :=
  Env (λ _, None) None (Returns (Some demo_restaurant)) None
      (Returns demo_article) None (Returns (Some demo_post)) 1000000.

(** [generate_article] raises. *)
Definition env_generation_fails : env :=
  Env (λ _, None) None (Returns (Some demo_restaurant)) None
      (Raises (Exception "API error")) None (Returns (Some demo_post)) 1000000.


(** The page shows three photos. *)
Definition env_few_photos : env :=
  Env (λ _, None) None
      (Returns (Some (Restaurant "Sushi Ichi" ["sushi"] None "Tokyo 1-2-3" 3
                                 [] "{'name': 'Sushi Ichi'}")))
      None (Returns demo_article) None (Returns (Some demo_post)) 1000000.

Definition demo_run (ev : env) : outcome () * world :=
  process_job ev "job_1_0" demo_url None demo_world.

(** Two jobs are submitted, the loop makes three passes, the first job
    ends. *)
Definition demo_job2 : job := Job "job_2_1" "https://example.test/r/2/" None.

Definition demo_actions : list action :=
  [Enqueue demo_job; AddStatus demo_job "2024-01-01T00:00:00";
   Enqueue demo_job2; AddStatus demo_job2 "2024-01-01T00:00:01"]
  ++ tick ++ tick ++ tick ++ [Finish 0 env_ok; Finish 0 env_generation_fails].


(** The loop stands before its locked block with one job queued. *)
Definition before_lock : list action :=
  [Enqueue demo_job; LoopStep; LoopStep; LoopStep].

(** * More of the code

    The rest of [web_ui.py] ([submit_jobs] as a whole, [get_categories],
    [handle_stats_request]) and what it calls in the other modules:
    [RestaurantScraper.normalize_restaurant_url] and
    [scrape_restaurant_list] of scraper.py, the retry loop of
    [ArticleGenerator._generate_article_data], [create_post],
    [publish_article], [get_all_categories] and the end of
    [find_matching_categories] of wordpress_publisher.py, and the command
    line of main.py.  Network, HTML parsing and the API are oracles, as
    before. *)

(** ** [RestaurantScraper.normalize_restaurant_url]

    On the characters of the url; a character is one byte, [\d] is an
    ASCII digit (a url is ASCII text). *)

Definition chr (n : nat) : ascii := ascii_of_nat n.
Definition slash : ascii := chr 47.
Definition qmark : ascii := chr 63.
Definition hash : ascii := chr 35.
Definition cap_a : ascii := chr 65.

(** [\d] *)
Definition is_digit (c : ascii) : bool :=
  (48 <=? nat_of_ascii c)%nat && (nat_of_ascii c <=? 57)%nat.

(** [[^/]] *)
Definition not_slash (c : ascii) : bool := negb (Ascii.eqb c slash).

(** The longest prefix whose characters satisfy [p], and the rest. *)
Fixpoint span (p : ascii → bool) (l : list ascii)
    : list ascii * list ascii :=
  match l with
  | c :: rest =>
      if p c then let '(a, b) := span p rest in (c :: a, b) else ([], l)
  | [] => ([], [])
  end.

(** [s.split(c)[0]] *)
Definition before (c : ascii) (l : list ascii) : list ascii :=
  (span (λ d, negb (Ascii.eqb d c)) l).1.

(** [s.rstrip('/')] *)
Definition rstrip (l : list ascii) : list ascii :=
  rev (span (Ascii.eqb slash) (rev l)).2.

Definition http : list ascii := list_ascii_of_string "http://".
Definition https : list ascii := list_ascii_of_string "https://".

(** [https?://] *)
Definition strip_scheme (l : list ascii)
    : option (list ascii * list ascii) :=
  if bool_decide (take 8 l = https) then Some (https, drop 8 l)
  else if bool_decide (take 7 l = http) then Some (http, drop 7 l)
  else None.

(** [[^/]+/] *)
Definition segment (l : list ascii) : option (list ascii * list ascii) :=
  match span not_slash l with
  | ((_ :: _) as seg, _ :: rest) => Some (seg, rest)
  | _ => None
  end.

(** [A\d+/] *)
Definition a_code (l : list ascii) : option (list ascii * list ascii) :=
  match l with
  | a :: l' =>
      if Ascii.eqb a cap_a then
        match span is_digit l' with
        | ((_ :: _) as ds, s :: rest) =>
            if Ascii.eqb s slash then Some (ds, rest) else None
        | _ => None
        end
      else None
  | [] => None
  end.

(** [\d+] *)
Definition digits (l : list ascii) : option (list ascii * list ascii) :=
  match span is_digit l with
  | ((_ :: _) as ds, rest) => Some (ds, rest)
  | _ => None
  end.

(** [match.group(1)] of
    [re.match(r'(https?://[^/]+/[^/]+/A\d+/A\d+/\d+)/?.*', url)]. *)
Definition restaurant_prefix (l : list ascii) : option (list ascii) :=
  '(scheme, l) ← strip_scheme l;
  '(host, l) ← segment l;
  '(region, l) ← segment l;
  '(a1, l) ← a_code l;
  '(a2, l) ← a_code l;
  '(id, _) ← digits l;
  Some (scheme ++ host ++ [slash] ++ region ++ [slash]
        ++ [cap_a] ++ a1 ++ [slash] ++ [cap_a] ++ a2 ++ [slash] ++ id)%list.

Definition normalize_chars (l : list ascii) : list ascii :=
  let l := before hash (before qmark l) in
  match restaurant_prefix l with
  | Some g => (g ++ [slash])%list
  | None => (rstrip l ++ [slash])%list
  end.

Definition normalize_restaurant_url (url : string) : string :=
  string_of_list_ascii (normalize_chars (list_ascii_of_string url)).

(** [t] is empty or starts with a character that fails [p]. *)
Definition stops (p : ascii → bool) (t : list ascii) : Prop :=
  match t with
  | [] => True
  | c :: _ => p c = false
  end.

(** A non-empty run of characters that satisfy [p]: [p+]. *)
Definition run_of (p : ascii → bool) (l : list ascii) : Prop :=
  l ≠ [] ∧ Forall (λ c, p c = true) l.

(** The shape of [match.group(1)]: scheme, host, region, two area codes
    and the restaurant id. *)
Inductive canonical : list ascii → Prop :=
  | Canonical sc ho re a1 a2 id :
      sc = http ∨ sc = https →
      run_of not_slash ho → run_of not_slash re →
      run_of is_digit a1 → run_of is_digit a2 → run_of is_digit id →
      canonical (sc ++ ho ++ [slash] ++ re ++ [slash]
                 ++ [cap_a] ++ a1 ++ [slash] ++ [cap_a] ++ a2
                 ++ [slash] ++ id)%list.

(** No character of [l] is [c]. *)
Definition free (c : ascii) (l : list ascii) : Prop :=
  Forall (λ d, negb (Ascii.eqb d c) = true) l.

(** A restaurant page: [scheme://host/region/A<n>/A<n>/<id>], without a
    query or a fragment. *)
Definition restaurant_page (base : string) : Prop :=
  canonical (list_ascii_of_string base)
  ∧ free qmark (list_ascii_of_string base)
  ∧ free hash (list_ascii_of_string base).

(** ** Histories of the running system *)

(** The jobs of the [Enqueue] actions of a run, in order. *)
Definition enqueued (acts : list action) : list job :=
  omap (λ a, match a with Enqueue j => Some j | _ => None end) acts.

(** The jobs handed to the executor so far followed by the jobs still
    queued. *)
Definition job_history (s : sys) : list job :=
  (map d_job (dispatched s) ++ job_queue (globals s))%list.

(** ** The windows of [token_usage] and who writes them *)

(** The three entries of [token_usage] that carry a timestamp. *)
Inductive timed := TMinute | THour | TDay.

Definition timed_window (p : timed) (u : usage) : window :=
  match p with
  | TMinute => u_minute u
  | THour => u_hour u
  | TDay => u_day u
  end.

(** The seconds after which [reset_token_stats_if_needed] resets it. *)
Definition timed_period (p : timed) : Z :=
  match p with
  | TMinute => 60
  | THour => 3600
  | TDay => 86400
  end.

(** The window is due for a reset at [now]. *)
Definition overdue (now : Z) (p : timed) (u : usage) : Prop :=
  timed_period p * 1000000 ≤ now - w_timestamp (timed_window p u).

(** The arguments of one [record_token_usage] call, with the time it
    read. *)
Record record_call := RecordCall {
  rc_now : Z;
  rc_input : Z;
  rc_output : Z;
  rc_cost : Q
}.

Definition apply_record (u : usage) (c : record_call) : usage :=
  record_token_usage (rc_now c) (rc_input c) (rc_output c) (rc_cost c) u.

(** From [w] to [w'] the usage changed by calls of [record_token_usage]
    only, each of them logged. *)
Definition records_usage (w w' : world) : Prop :=
  ∃ l, token_usage w' = foldl apply_record (token_usage w) l
       ∧ count_calls is_record (calls w')
         = (count_calls is_record (calls w) + length l)%nat.

Definition tracks_usage {A} (m : M A) : Prop := ∀ w, records_usage w (m w).2.


(** ** The footprint of [process_job] *)

(** The fields of an entry that say which job it is. *)
Definition same_job (s s' : job_state) : Prop :=
  js_job_id s' = js_job_id s ∧ js_url s' = js_url s
  ∧ js_created_at s' = js_created_at s.

(** From [w] to [w'] no entry of [job_status] but the one of job [j] has
    changed, no entry has come or gone, and the entry of [j] is still about
    the same job. *)
Definition touches_only (j : string) (w w' : world) : Prop :=
  (∀ k, k ≠ j → job_status w' !! k = job_status w !! k)
  ∧ match job_status w !! j, job_status w' !! j with
    | Some s, Some s' => same_job s s'
    | None, None => True
    | _, _ => False
    end.

Definition confined {A} (j : string) (m : M A) : Prop :=
  ∀ w, touches_only j w (m w).2.

(** The publishing step fails with [msg]: the constructor or the call
    raises, or the call returns nothing. *)
Definition publish_fails (ev : env) (msg : string) : Prop :=
  match publisher_init ev with
  | Some e => msg = str_exn e
  | None =>
      match publish_result ev with
      | Returns None => msg = "WordPress投稿に失敗しました"
      | Raises e => msg = str_exn e
      | Returns (Some _) => False
      end
  end.

(** ** [submit_jobs], the whole request *)

(** [needle in hay] *)
Fixpoint contains (needle hay : string) : bool :=
  String.prefix needle hay
  || match hay with
     | EmptyString => false
     | String _ rest => contains needle rest
     end.


(** One element of ['urls']: [url_data.get('url')] ([None] when the key is
    missing) and [url_data.get('category_ids')]. *)
Record url_data := UrlData {
  ud_url : option string;
  ud_category_ids : option (list raw_int)
}.

(** [request.json] with the defaults of the four [data.get] filled in. *)
Record submit_request := SubmitRequest {
  sr_urls : list url_data;
  sr_category_ids : list raw_int;
  sr_use_auto_category : bool;
  sr_include_all_pages : bool
}.

(** What surrounds one request. *)
Record submit_env := SubmitEnv {
  (** what [load_config()] or [RestaurantScraper(config)] raises *)
  se_setup : option exn;
  (** [scraper.scrape_restaurant_list(url, include_all_pages=...)] for the
      element at this index of ['urls'] *)
  se_list : nat → outcome (list string);
  (** [int(time.time() * 1000)] and [datetime.now().isoformat()] when the
      [k]-th job of the request is built *)
  se_time_ms : nat → Z;
  se_created_at : nat → string;
  (** what the [k]-th [socketio.emit('job_error', ...)] of the request
      raises *)
  se_emit_raises : nat → option exn
}.

(** The globals, the [job_ids] collected so far and the ['job_error']
    events emitted so far (url and message). *)
Record submit_state := SubmitState {
  ss_world : world;
  ss_job_ids : list string;
  ss_errors : list (string * string)
}.

(** The block both branches share: skip a url some entry of [job_status]
    has, else build the job, append it, register it, note its id. *)
Definition add_job (env : submit_env) (req : submit_request)
    (url_specific_cats : option (list raw_int)) (st : submit_state)
    (url : string) : submit_state :=
  let w := ss_world st in
  if is_duplicate url (job_status w) then st
  else
    let k := length (ss_job_ids st) in
    let j := Job (make_job_id (se_time_ms env k) (length (job_queue w))) url
               (resolve_category_ids url_specific_cats
                  (sr_use_auto_category req) (sr_category_ids req)) in
    SubmitState (register j (se_created_at env k) (enqueue j w))
                (ss_job_ids st ++ [job_id j]) (ss_errors st).










(** Some entry of [job_status] has this url. *)
Definition has_url (url : string) (m : gmap string job_state) : Prop :=
  ∃ k s, m !! k = Some s ∧ js_url s = url.



(** ** Job ids *)

(** No character of [s] is the separator [_]. *)
Fixpoint no_sep (s : string) : bool :=
  match s with
  | EmptyString => true
  | String c rest => negb (Ascii.eqb c (Ascii.ascii_of_nat 95)) && no_sep rest
  end.

(** ** The entries a request registers *)

(** The entry [submit_jobs] writes for a job. *)
Definition queued_entry (j : job) (created_at : string) : job_state :=
  JobState (job_id j) (job_url j) Queued 0 "待機中..." created_at
           None None None.


(** The state of a request that started from [w0] with nothing noted. *)
Definition registering (env : submit_env) (w0 : world) (st : submit_state)
    : Prop :=
  ∃ js,
    job_queue (ss_world st) = (job_queue w0 ++ js)%list
    ∧ ss_job_ids st = map job_id js
    ∧ (∀ i j, js !! i = Some j →
         job_id j = make_job_id (se_time_ms env i)
                                (length (job_queue w0) + i)
         ∧ job_status (ss_world st) !! job_id j
           = Some (queued_entry j (se_created_at env i))
         ∧ ¬ has_url (job_url j) (job_status w0))
    ∧ (∀ key s, job_status w0 !! key = Some s →
         job_status (ss_world st) !! key = Some s)
    ∧ NoDup (map job_url js).

(** ** Requests and jobs in any order *)



(** ** [RestaurantScraper.scrape_restaurant_list] *)

(** [list(dict.fromkeys(l))]: a key keeps the place of its first
    insertion. *)
Definition dict_fromkeys (l : list string) : list string :=
  foldl (λ keys x, if decide (x ∈ keys) then keys else keys ++ [x])%list [] l.









(** ** [ArticleGenerator._generate_article_data]: the retry loop *)

(** [s.lower()], on the ASCII letters. *)
Definition lower_char (c : Ascii.ascii) : Ascii.ascii :=
  let n := Ascii.nat_of_ascii c in
  if (65 <=? n)%nat && (n <=? 90)%nat then Ascii.ascii_of_nat (n + 32) else c.

Fixpoint lower (s : string) : string :=
  match s with
  | EmptyString => EmptyString
  | String c rest => String (lower_char c) (lower rest)
  end.

(** ['429' in error_str or 'rate_limit' in error_str.lower()] *)
Definition is_rate_limit (e : exn) : bool :=
  contains "429" (str_exn e) || contains "rate_limit" (lower (str_exn e)).

(** One pass through the [try] of the loop: the parsed JSON, a
    [json.JSONDecodeError], or any other exception (of the API call or of
    reading its response). *)
Inductive api_outcome (J : Type) :=
| ApiJson (article_json : J)
| ApiBadJson (e : exn)
| ApiRaises (e : exn).
Arguments ApiJson {J} article_json.
Arguments ApiBadJson {J} e.
Arguments ApiRaises {J} e.

Definition max_retries : nat := 5.
Definition base_delay : Z := 10.

Definition retries_exhausted : exn :=
  Exception ("API レート制限エラー: " +:+ pretty max_retries
             +:+ "回リトライしましたが失敗しました。しばらく待ってから再試行してください。").

Definition unexpected_failure : exn :=
  Exception "API呼び出しが予期せず失敗しました".

(** What the loop did: the result, the number of API calls and the
    [time.sleep] arguments in order. *)
Record api_trace (J : Type) := ApiTrace {
  at_result : outcome J;
  at_calls : nat;
  at_sleeps : list Z
}.
Arguments ApiTrace {J} _ _ _.
Arguments at_result {J} _.
Arguments at_calls {J} _.
Arguments at_sleeps {J} _.

(** [while retry_count < max_retries], with [fuel] the passes left
    ([max_retries - retry_count]); [api k] is the outcome of the call made
    after [k] earlier ones. *)
Fixpoint retry_loop {J} (api : nat → api_outcome J) (fuel retry_count : nat)
    (calls : nat) (sleeps : list Z) : api_trace J :=
  match fuel with
  | O => ApiTrace (Raises unexpected_failure) calls sleeps
  | S fuel =>
      match api calls with
      | ApiJson article_json => ApiTrace (Returns article_json) (S calls) sleeps
      | ApiBadJson e => ApiTrace (Raises e) (S calls) sleeps
      | ApiRaises e =>
          if is_rate_limit e then
            let retry_count := S retry_count in
            if (max_retries <=? retry_count)%nat then
              ApiTrace (Raises retries_exhausted) (S calls) sleeps
            else
              let wait_time := base_delay * 2 ^ Z.of_nat (retry_count - 1) in
              retry_loop api fuel retry_count (S calls)
                         (sleeps ++ [wait_time])
          else ApiTrace (Raises e) (S calls) sleeps
      end
  end.

Definition generate_article_data {J} (api : nat → api_outcome J)
    : api_trace J :=
  retry_loop api (max_retries - 0) 0 0 [].

(** The call is one the loop retries. *)
Definition rate_limited {J} (o : api_outcome J) : Prop :=
  match o with
  | ApiRaises e => is_rate_limit e = true
  | _ => False
  end.

(** What the loop makes of a call it does not retry. *)
Definition final_result {J} (o : api_outcome J) : outcome J :=
  match o with
  | ApiJson article_json => Returns article_json
  | ApiBadJson e | ApiRaises e => Raises e
  end.

Definition backoff : list Z := [10; 20; 40; 80].

#[global] Instance rate_limited_dec {J} (o : api_outcome J) :
  Decision (rate_limited o).
Proof. destruct o; cbn; apply _. Defined.

(** ** [WordPressPublisher]: what is sent to the REST API *)

(** The JSON body of [POST /posts]. ['categories'], ['tags'] and ['meta']
    are keys the code sets only under a condition; ['meta'] keeps the order
    in which its keys are set. *)
Record post_data := PostData {
  pd_title : string;
  pd_content : string;
  pd_slug : string;
  pd_status : string;
  pd_format : string;
  pd_categories : option (list Z);
  pd_tags : option (list Z);
  pd_meta : option (list (string * string))
}.

(** [if x:] for a string. *)
Definition nonempty (s : string) : bool := negb (String.eqb s EmptyString).

(** [meta_fields], in the order of the assignments. *)
Definition meta_fields (title meta_description seo_title : string)
    : list (string * string) :=
  ((if nonempty meta_description
    then [("_yoast_wpseo_metadesc", meta_description)] else [])
   ++ (if nonempty seo_title then [("_yoast_wpseo_title", seo_title)] else [])
   ++ (if nonempty title then [("ssp_meta_title", title)] else [])
   ++ (if nonempty meta_description
       then [("ssp_meta_description", meta_description)] else [])
   ++ (if nonempty meta_description
       then [("_aioseop_description", meta_description)] else [])
   ++ (if nonempty seo_title then [("_aioseop_title", seo_title)] else []))%list.

(** [None] for an empty list: the key is not set. *)
Definition if_any {A} (l : list A) : option (list A) :=
  match l with
  | [] => None
  | _ => Some l
  end.

(** The collaborators of the publisher: [_get_or_create_tags] (it catches
    what its requests raise), the [session.post] of the post with
    [response.status_code] and [response.json()],
    [find_matching_categories] and [get_category_id('uncategorized')]. *)
Record wp_env := WpEnv {
  wp_tag_ids : list string → list Z;
  wp_post : post_data → outcome (Z * post);
  wp_find_matching : restaurant → outcome (list Z);
  wp_uncategorized : option Z
}.

(** [post_data] as [create_post] builds it. [category_ids] is non-empty
    when the key is set, but the list set may be empty. *)
Definition build_post_data (wp : wp_env) (title content slug : string)
    (category_ids : list raw_int) (tags : list string)
    (meta_description seo_title post_status : string) : post_data :=
  PostData title
    ("<!-- wp:html -->" +:+ nl +:+ content +:+ nl +:+ "<!-- /wp:html -->")
    slug post_status "standard"
    (match category_ids with
     | [] => None
     | _ => Some (category_ids_int category_ids)
     end)
    (match tags with
     | [] => None
     | _ => if_any (wp_tag_ids wp tags)
     end)
    (if_any (meta_fields title meta_description seo_title)).

(** [create_post]: the post on status 201, [None] on any other status and
    on any exception. The second component is the body posted, if the
    request was made. *)
Definition create_post (wp : wp_env) (title content slug : string)
    (category_ids : list raw_int) (tags : list string)
    (meta_description seo_title post_status : string)
    : option post * post_data :=
  let pd := build_post_data wp title content slug category_ids tags
              meta_description seo_title post_status in
  (match wp_post wp pd with
   | Returns (201, p) => Some p
   | _ => None
   end, pd).




(** ** [handle_stats_request] *)

(** The payload of ['stats_update'], without the [psutil] readings of
    ['system']. *)
Record stats := Stats {
  st_token_usage : usage;
  st_queue_length : nat;
  st_processing : bool;
  st_active_jobs : Z;
  st_concurrent_limit : Z
}.

Definition handle_stats_request (now : Z) (w : world) : stats * world :=
  let w := with_token_usage (reset_token_stats_if_needed now) w in
  (Stats (token_usage w) (length (job_queue w)) (0 <? active_jobs w)
         (active_jobs w) (concurrent_jobs (settings w)), w).

(** ** [WordPressPublisher.get_all_categories] *)

(** A category as the REST API lists it; ['parent'] may be missing. *)
Record category := Category {
  cat_id : Z;
  cat_parent : option Z;
  cat_name : string
}.

(** The reply to one [GET /categories] request. *)
Inductive page_reply :=
| PageOk (categories : list category)   (* status 200 and its JSON *)
| PageStatus                            (* any other status *)
| PageRaises (e : exn).                 (* the request or [json()] raises *)

(** [while True], with [fuel] requests at most; [None] when the loop is
    still running after them. *)
Fixpoint fetch_pages (reply : nat → page_reply) (fuel page : nat)
    (all_categories : list category) : option (outcome (list category)) :=
  match fuel with
  | O => None
  | S fuel =>
      match reply page with
      | PageOk [] => Some (Returns all_categories)
      | PageOk categories =>
          fetch_pages reply fuel (S page) (all_categories ++ categories)
      | PageStatus => Some (Returns all_categories)
      | PageRaises e => Some (Raises e)
      end
  end.

(** The list returned and [self.all_categories_cache] afterwards. *)
Definition get_all_categories (reply : nat → page_reply) (fuel : nat)
    (all_categories_cache : option (list category))
    : option (list category * option (list category)) :=
  match all_categories_cache with
  | Some all_categories => Some (all_categories, all_categories_cache)
  | None =>
      match fetch_pages reply fuel 1 [] with
      | Some (Returns all_categories) =>
          Some (all_categories, Some all_categories)
      | Some (Raises _) => Some ([], None)
      | None => None
      end
  end.

(** The server lists [pages], each non-empty, from page 1 on. *)
Definition serves (reply : nat → page_reply) (pages : list (list category))
    : Prop :=
  ∀ i cs, pages !! i = Some cs → cs ≠ [] ∧ reply (S i) = PageOk cs.

(** ** [get_categories]: the tree of categories

    The dicts of [categories] are shared between the list, [category_map]
    and the ['children'] lists, so a category is named by its index in
    [categories] and the loops build a graph over the indices; the JSON
    answered is that graph unfolded from the roots. *)

(** [cat.get('parent', 0)] *)
Definition parent_id (cat : category) : Z := default 0 (cat_parent cat).

(** [{cat['id']: cat for cat in categories}] from index [i] on: a later
    category with the same id replaces an earlier one. *)
Fixpoint category_map_from (i : nat) (categories : list category)
    (m : gmap Z nat) : gmap Z nat :=
  match categories with
  | [] => m
  | cat :: rest => category_map_from (S i) rest (<[cat_id cat := i]> m)
  end.

Definition category_map (categories : list category) : gmap Z nat :=
  category_map_from 0 categories ∅.

(** [category_tree] and the ['children'] list of every category. *)
Record forest := Forest {
  category_tree : list nat;
  children : list (list nat)
}.

(** One pass of the second [for cat in categories]. *)
Definition attach (m : gmap Z nat) (g : forest) (i : nat) (cat : category)
    : forest :=
  if parent_id cat =? 0 then Forest (category_tree g ++ [i]) (children g)
  else
    match m !! parent_id cat with
    | Some parent =>
        Forest (category_tree g)
               (alter (λ l, l ++ [i])%list parent (children g))
    | None => g
    end.

Fixpoint attach_from (m : gmap Z nat) (i : nat) (categories : list category)
    (g : forest) : forest :=
  match categories with
  | [] => g
  | cat :: rest => attach_from m (S i) rest (attach m g i cat)
  end.

Definition build_forest (categories : list category) : forest :=
  attach_from (category_map categories) 0 categories
    (Forest [] (replicate (length categories) [])).

(** A category of the JSON, with its nested ['children']. *)
#[warnings="-register-all"]
Inductive tree := Node (cat : category) (subtrees : list tree).

(** The category of index [i] written out with what hangs below it, to
    depth [fuel] at most. *)
Fixpoint unfold_tree (categories : list category) (g : forest) (fuel : nat)
    (i : nat) : option tree :=
  match fuel with
  | O => None
  | S fuel =>
      cat ← categories !! i;
      subtrees ← mapM (unfold_tree categories g fuel)
                      (default [] (children g !! i));
      Some (Node cat subtrees)
  end.

(** ['categories'] of the answer, for the list [get_all_categories]
    returned. *)
Definition get_categories_at (fuel : nat) (categories : list category)
    : option (list tree) :=
  let g := build_forest categories in
  mapM (unfold_tree categories g fuel) (category_tree g).

Definition get_categories (categories : list category) : option (list tree) :=
  get_categories_at (length categories) categories.

Definition root_cat (t : tree) : category := let 'Node cat _ := t in cat.

(** The index under which [category_map] keeps the parent of category
    [j], if [j] is not a root and its parent id is some category's id. *)
Definition parent_of (categories : list category) (j : nat) : option nat :=
  cat ← categories !! j;
  if parent_id cat =? 0 then None
  else category_map categories !! parent_id cat.

Definition is_root (categories : list category) (j : nat) : bool :=
  match categories !! j with
  | Some cat => parent_id cat =? 0
  | None => false
  end.

Definition child_of (categories : list category) (p j : nat) : bool :=
  bool_decide (parent_of categories j = Some p).

(** The indices from a category up to a root of [category_tree], along
    the parents [category_map] gives. *)
Inductive chain (categories : list category) : list nat → Prop :=
  | chain_root r : is_root categories r = true → chain categories [r]
  | chain_step j p rest :
      chain categories (p :: rest) →
      parent_of categories j = Some p →
      chain categories (j :: p :: rest).

(** ** [find_matching_categories]: collecting the ids

    The end of the function, from [add_category_with_parents] on; the
    matching that fills [region_matches] and [genre_matches] is not
    modelled. *)

(** [next((c for c in all_categories if c['id'] == parent_id), None)] for
    a category whose parent id is above 0: the first category with that
    id. *)
Definition parent_cat (all_categories : list category) (cat : category)
    : option category :=
  if 0 <? parent_id cat
  then List.find (λ c, cat_id c =? parent_id cat) all_categories
  else None.

(** [add_category_with_parents], to recursion depth [fuel]; [None] when the
    recursion goes deeper (Python raises [RecursionError] at its limit). *)
Fixpoint add_category_with_parents (all_categories : list category)
    (fuel : nat) (cat : category) (matched_category_ids : list Z)
    : option (list Z) :=
  match fuel with
  | O => None
  | S fuel =>
      let matched_category_ids :=
        if decide (cat_id cat ∈ matched_category_ids)
        then matched_category_ids
        else (matched_category_ids ++ [cat_id cat])%list in
      match parent_cat all_categories cat with
      | Some parent => add_category_with_parents all_categories fuel parent
                                                 matched_category_ids
      | None => Some matched_category_ids
      end
  end.

(** The two [for] loops over [region_matches[:1]] and
    [genre_matches[:2]]. *)
Definition used_matches (region_matches genre_matches : list category)
    : list category :=
  (take 1 region_matches ++ take 2 genre_matches)%list.

Fixpoint add_all (all_categories : list category) (fuel : nat)
    (cats : list category) (matched_category_ids : list Z)
    : option (list Z) :=
  match cats with
  | [] => Some matched_category_ids
  | cat :: rest =>
      ids ← add_category_with_parents all_categories fuel cat
                                      matched_category_ids;
      add_all all_categories fuel rest ids
  end.

Definition collect_category_ids (all_categories : list category)
    (fuel : nat) (region_matches genre_matches : list category)
    : option (list Z) :=
  add_all all_categories fuel (used_matches region_matches genre_matches) [].

(** The category [n] steps up from [cat]. *)
Fixpoint nth_parent (all_categories : list category) (n : nat)
    (cat : category) : option category :=
  match n with
  | O => Some cat
  | S n => parent_cat all_categories cat ≫= nth_parent all_categories n
  end.

(** [cat] has exactly [n] categories above it. *)
Definition height (all_categories : list category) (cat : category)
    (n : nat) : Prop :=
  ∃ top, nth_parent all_categories n cat = Some top
         ∧ parent_cat all_categories top = None.

(** What a run of additions has done to the list. *)
Record added (all_categories : list category) (cats : list category)
    (ids ids' : list Z) : Prop := Added {
  added_prefix : ∃ new, ids' = (ids ++ new)%list;
  added_NoDup : NoDup ids → NoDup ids';
  added_in : ∀ c n d, c ∈ cats →
      nth_parent all_categories n c = Some d → cat_id d ∈ ids';
  added_only : ∀ id, id ∈ ids' →
      id ∈ ids ∨ ∃ c n d, c ∈ cats ∧ nth_parent all_categories n c = Some d
                          ∧ cat_id d = id
}.

(** ** The command line: [main] of main.py

    An interrupt from the keyboard is not modelled. *)











(** ** Concrete requests and collaborators *)

(** The publisher answers with no post. *)
Definition env_publish_fails : env :=
  Env (λ _, None) None (Returns (Some demo_restaurant)) None
      (Returns demo_article) None (Returns None) 1000000.


Definition demo_page : string :=
  "https://tabelog.com/tokyo/A1301/A130101/13000001".




Definition demo_category : category := Category 7 None "寿司".

(** One page of categories, then a server error. *)
Definition demo_reply (page : nat) : page_reply :=
  match page with
  | 1%nat => PageOk [demo_category]
  | _ => PageStatus
  end.



(** * Properties *)

(** ** The usage tracker *)

Lemma reset_if_due now secs x :
  secs * 1000000 ≤ now - w_timestamp x →
  reset_if now secs x = fresh_window now.
Proof.
  intros H. unfold reset_if, elapsed_ge.
  destruct (Z.leb_spec (secs * 1000000) (now - w_timestamp x)); [done | lia].
Qed.

Lemma reset_if_early now secs x :
  now - w_timestamp x < secs * 1000000 →
  reset_if now secs x = x.
Proof.
  intros H. unfold reset_if, elapsed_ge.
  destruct (Z.leb_spec (secs * 1000000) (now - w_timestamp x)); [lia | done].
Qed.

(** A [record_token_usage] at [T + P] or later leaves in the hour window
    the new increments alone (the cost up to [0 + cost]). *)
Lemma record_after_period now i o c u :
  3600 * 1000000 ≤ now - w_timestamp (u_hour u) →
  u_hour (record_token_usage now i o c u)
  = Window (Counters i o (0 + c)%Q 1) now.
Proof.
  intros H. unfold record_token_usage; cbn.
  rewrite reset_if_due by done. reflexivity.
Qed.

(** A [record_token_usage] before [T + P] adds to what the hour window
    holds and keeps its start. *)
Lemma record_within_period now i o c u :
  now - w_timestamp (u_hour u) < 3600 * 1000000 →
  u_hour (record_token_usage now i o c u)
  = add_usage_w i o c (u_hour u).
Proof.
  intros H. unfold record_token_usage; cbn.
  rewrite reset_if_early by done. reflexivity.
Qed.

(** Whatever is reset, one [record_token_usage] raises the four completion
    counts by one each over the windows left by the reset. *)
Lemma record_counts now i o c u :
  let r := reset_token_stats_if_needed now u in
  let u' := record_token_usage now i o c u in
  c_count (w_counters (u_minute u')) = c_count (w_counters (u_minute r)) + 1
  ∧ c_count (w_counters (u_hour u')) = c_count (w_counters (u_hour r)) + 1
  ∧ c_count (w_counters (u_day u')) = c_count (w_counters (u_day r)) + 1
  ∧ c_count (u_total u') = c_count (u_total u) + 1.
Proof. cbn. auto. Qed.

(** ** What [process_job] leaves alone *)

Lemma frames_ret {A} (a : A) : frames (ret a).
Proof. by intros w. Qed.

Lemma frames_raise {A} e : frames (@raise A e).
Proof. by intros w. Qed.

Lemma frames_bind {A B} (m : M A) (k : A → M B) :
  frames m → (∀ a, frames (k a)) → frames (m ≫= k).
Proof.
  intros Hm Hk w. unfold mbind, M_bind, bind.
  specialize (Hm w). destruct (m w) as [[a|e] w']; cbn in *.
  - destruct (Hk a w') as (-> & -> & ->). done.
  - done.
Qed.

Lemma frames_try_except {A} (m : M A) h :
  frames m → (∀ e, frames (h e)) → frames (try_except m h).
Proof.
  intros Hm Hh w. unfold try_except.
  specialize (Hm w). destruct (m w) as [[a|e] w']; cbn in *.
  - done.
  - destruct (Hh e w') as (-> & -> & ->). done.
Qed.

Lemma frames_update_status j f : frames (update_status j f).
Proof. intros w. unfold update_status. by destruct (job_status w !! j). Qed.

Lemma frames_get_status j : frames (get_status j).
Proof. intros w. unfold get_status. by destruct (job_status w !! j). Qed.

Lemma frames_log e : frames (modify (log_call e)).
Proof. by intros w. Qed.

Lemma frames_usage f : frames (modify (with_token_usage f)).
Proof. by intros w. Qed.

Lemma frames_gets {A} (f : world → A) : frames (gets f).
Proof. by intros w. Qed.

Lemma frames_of_outcome {A} (r : outcome A) : frames (of_outcome r).
Proof. by intros w. Qed.

Lemma frames_may_raise o : frames (may_raise o).
Proof. destruct o; by intros w. Qed.

Create HintDb frames.
#[local] Hint Resolve frames_ret frames_raise frames_update_status
  frames_get_status frames_log frames_usage frames_gets frames_of_outcome frames_may_raise : frames.

Ltac solve_frames :=
  repeat first
    [ solve [auto with frames]
    | apply frames_bind; [| intros ?]
    | apply frames_try_except; [| intros ?]
    | match goal with
      | |- frames (match ?x with _ => _ end) => destruct x
      | |- frames (if ?x then _ else _) => destruct x
      end ].

Lemma frames_emit ev n j : frames (emit ev n j).
Proof. unfold emit. solve_frames. Qed.
#[local] Hint Resolve frames_emit : frames.

Lemma frames_fetch_stage ev url : frames (fetch_stage ev url).
Proof. unfold fetch_stage. solve_frames. Qed.

Lemma frames_generate_stage ev rd : frames (generate_stage ev rd).
Proof. unfold generate_stage. solve_frames. Qed.

Lemma frames_publish_stage ev cats a rd : frames (publish_stage ev cats a rd).
Proof. unfold publish_stage. solve_frames. Qed.
#[local] Hint Resolve frames_fetch_stage frames_generate_stage
  frames_publish_stage : frames.

Lemma frames_process_job_try ev j url cats :
  frames (process_job_try ev j url cats).
Proof. unfold process_job_try. solve_frames. Qed.

Lemma frames_process_job_except ev j e : frames (process_job_except ev j e).
Proof. unfold process_job_except. solve_frames. Qed.

(** Whatever the collaborators do, [process_job] takes one off
    [active_jobs] and leaves the queue and the settings as they were. *)
Lemma process_job_active ev j url cats w :
  let w' := (process_job ev j url cats w).2 in
  active_jobs w' = active_jobs w - 1
  ∧ job_queue w' = job_queue w
  ∧ settings w' = settings w.
Proof.
  cbn. unfold process_job, try_finally.
  pose proof (frames_try_except _ _ (frames_process_job_try ev j url cats)
                (frames_process_job_except ev j) w) as H.
  destruct (try_except _ _ w) as [r w']; cbn in *.
  destruct H as (-> & -> & ->). done.
Qed.

(** ** Invariants of the running system *)

Lemma exec_cons a acts s : exec (a :: acts) s = exec acts (step s a).
Proof. reflexivity. Qed.

Lemma exec_app acts1 acts2 s : exec (acts1 ++ acts2) s = exec acts2 (exec acts1 s).
Proof. apply foldl_app. Qed.

(** An invariant of the steps allowed by [Q] holds after any run of such
    steps. *)
Lemma exec_invariant (P : sys → Prop) (Q : action → Prop) :
  (∀ s a, Q a → P s → P (step s a)) →
  ∀ acts s, Forall Q acts → P s → P (exec acts s).
Proof.
  intros Hstep acts. induction acts as [|a acts IH]; intros s HQ HP; [done|].
  inversion_clear HQ. cbn. apply IH; auto.
Qed.

Lemma counted_step s a : counted s → counted (step s a).
Proof.
  unfold counted. destruct s as [w p pl ds], a; cbn; try done.
  - destruct p; cbn; try done.
    + by destruct (_ <=? _).
    + unfold locked_block; cbn. destruct (job_queue w); cbn; [done|].
      destruct (_ <? _); cbn; [|done].
      intros ->. rewrite length_app. cbn. lia.
  - unfold finish_job; cbn. destruct (pl !! i) eqn:Hi; cbn; [|done].
    intros H. destruct (process_job_active ev (job_id j) (job_url j)
                          (job_category_ids j) w) as (-> & _).
    rewrite H, length_delete by eauto. apply lookup_lt_Some in Hi. lia.
Qed.

Lemma dispatches_within_limit_step s a :
  dispatches_within_limit s → dispatches_within_limit (step s a).
Proof.
  unfold dispatches_within_limit. destruct s as [w p pl ds], a; cbn; try done.
  - destruct p; cbn; try done.
    + by destruct (_ <=? _).
    + unfold locked_block; cbn. destruct (job_queue w); cbn; [done|].
      destruct (Z.ltb_spec (active_jobs w) concurrent_limit); cbn; [|done].
      intros Hds. apply Forall_app. split; [done|].
      repeat constructor; cbn. lia.
  - unfold finish_job; cbn. by destruct (pl !! i).
Qed.

Lemma capped_step c s a : keeps_cap c a → capped c s → capped c (step s a).
Proof.
  unfold capped. destruct s as [w p pl ds], a; cbn; try done.
  - intros _ (Hc & Ha & Hp). destruct p; cbn; try done.
    + by destruct (_ <=? _).
    + unfold locked_block; cbn. destruct (job_queue w); cbn; [done|].
      destruct (Z.ltb_spec (active_jobs w) concurrent_limit); cbn; [|done].
      split; [done|]. split; [lia|done].
  - intros _ (Hc & Ha & Hp). unfold finish_job; cbn.
    destruct (pl !! i); cbn; [|done].
    destruct (process_job_active ev (job_id j) (job_url j)
                (job_category_ids j) w) as (-> & _ & ->).
    split; [done|]. split; [lia|done].
  - intros Hst (_ & Ha & Hp). done.
Qed.

(** The supervising loop hands a job to the executor only from its locked
    block, and there only past the check of queue and limit. *)
Lemma loop_step_dispatch s :
  pool (loop_step s) ≠ pool s →
  ∃ c j rest,
    pc s = AtLock c
    ∧ job_queue (globals s) = j :: rest
    ∧ active_jobs (globals s) < c
    ∧ job_queue (globals (loop_step s)) = rest
    ∧ active_jobs (globals (loop_step s)) = active_jobs (globals s) + 1
    ∧ pool (loop_step s) = (pool s ++ [j])%list.
Proof.
  destruct s as [w p pl ds]; unfold loop_step; cbn.
  destruct p; cbn; try done.
  - by destruct (_ <=? _).
  - unfold locked_block; cbn.
    destruct (job_queue w) as [|j rest] eqn:Hq; cbn; [done|].
    destruct (Z.ltb_spec (active_jobs w) concurrent_limit); cbn; [|done].
    intros _. by exists concurrent_limit, j, rest.
Qed.

(** ** The concurrency cap *)

(** C1. Whatever the threads do and in whatever order (loop actions, job
    completions with any collaborators, submissions, settings writes, stats
    requests), every dispatch leaves [active_jobs] at most the
    [concurrent_limit] the loop read from [settings] for that pass; a job
    reaches the executor only through the locked block, which checks that
    the queue is non-empty and [active_jobs] is strictly below that limit
    and increments [active_jobs] in the same block; hence while
    [settings['concurrent_jobs']] stays at a value [c >= 0], [active_jobs]
    never exceeds [c]. *)
Theorem active_jobs_within_cap (now : Z) (st : settings_t) (acts : list action) :
  let s := exec acts (init_sys now st) in
  Forall (λ d, d_active d ≤ d_limit d) (dispatched s)
  ∧ (pool (loop_step s) ≠ pool s →
     ∃ c j rest,
       pc s = AtLock c
       ∧ job_queue (globals s) = j :: rest
       ∧ active_jobs (globals s) < c
       ∧ job_queue (globals (loop_step s)) = rest
       ∧ active_jobs (globals (loop_step s)) = active_jobs (globals s) + 1
       ∧ pool (loop_step s) = (pool s ++ [j])%list)
  ∧ (0 ≤ concurrent_jobs st →
     Forall (keeps_cap (concurrent_jobs st)) acts →
     active_jobs (globals s) ≤ concurrent_jobs st).
Proof.
  cbn. split; [|split].
  - apply (exec_invariant dispatches_within_limit (λ _, True)).
    + intros s a _. apply dispatches_within_limit_step.
    + apply Forall_true. done.
    + constructor.
  - apply loop_step_dispatch.
  - intros Hc Hacts.
    apply (exec_invariant (capped (concurrent_jobs st))
             (keeps_cap (concurrent_jobs st))); [|done|].
    + intros s a. apply capped_step.
    + done.
Qed.

(** ** The in-flight counter *)

(** C7. [process_job] takes exactly one off [active_jobs], in its [finally],
    whatever the collaborators return or raise and whether or not an
    exception leaves it; in every run of the system [active_jobs] is the
    number of dispatched jobs that have not ended, so it is back at zero
    when all of them have. *)
Theorem active_jobs_released_once :
  (∀ ev job_id url category_ids w,
     process_job ev job_id url category_ids w
     = (let '(r, w') :=
          try_except (process_job_try ev job_id url category_ids)
                     (process_job_except ev job_id) w in
        (r, release_slot w'))
     ∧ active_jobs (process_job ev job_id url category_ids w).2
       = active_jobs w - 1)
  ∧ (∀ now st acts,
       let s := exec acts (init_sys now st) in
       active_jobs (globals s) = Z.of_nat (length (pool s))
       ∧ (pool s = [] → active_jobs (globals s) = 0)).
Proof.
  split.
  - intros. split; [done|]. apply process_job_active.
  - intros now st acts. cbn.
    assert (counted (exec acts (init_sys now st))) as H.
    { apply (exec_invariant counted (λ _, True)).
      - intros s a _. apply counted_step.
      - by apply Forall_true.
      - done. }
    split; [done|]. intros Hp. unfold counted in H. by rewrite H, Hp.
Qed.

(** ** FIFO *)

Lemma exec_enqueue js s :
  exec (map Enqueue js) s
  = on_globals (with_job_queue (λ q, (q ++ js)%list)) s.
Proof.
  revert s. induction js as [|j js IH]; intros [w p pl ds]; cbn [map].
  - unfold on_globals, with_job_queue; cbn. rewrite app_nil_r. by destruct w.
  - rewrite exec_cons, IH. unfold on_globals, with_job_queue, enqueue; cbn.
    by rewrite <- app_assoc.
Qed.

(** A pass of the loop with room under both limits pops the head of the
    queue and hands it to the executor. *)
Lemma tick_pops_head w pl ds j rest :
  job_queue w = j :: rest →
  rate_open w →
  active_jobs w < concurrent_jobs (settings w) →
  exec tick (Sys w Sleeping pl ds)
  = Sys (with_active_jobs (λ n, n + 1) (with_job_queue (λ _, rest) w))
        Sleeping (pl ++ [j])%list
        (ds ++ [Dispatch j (concurrent_jobs (settings w)) (active_jobs w + 1)])%list.
Proof.
  unfold rate_open. intros Hq Hr Ha. cbn.
  destruct (Z.leb_spec (articles_per_hour (settings w))
              (c_count (w_counters (u_hour (token_usage w))))); [lia|].
  cbn. unfold locked_block; cbn. rewrite Hq.
  destruct (Z.ltb_spec (active_jobs w) (concurrent_jobs (settings w))); [|lia].
  done.
Qed.

(** A pass of the loop over an empty queue hands nothing over. *)
Lemma tick_empty_queue w pl ds :
  job_queue w = [] →
  rate_open w →
  exec tick (Sys w Sleeping pl ds) = Sys w Sleeping pl ds.
Proof.
  unfold rate_open. intros Hq Hr. cbn.
  destruct (Z.leb_spec (articles_per_hour (settings w))
              (c_count (w_counters (u_hour (token_usage w))))); [lia|].
  cbn. unfold locked_block; cbn. by rewrite Hq.
Qed.

Lemma ticks_fifo n : ∀ w pl ds,
  rate_open w →
  active_jobs w + Z.of_nat (length (job_queue w)) ≤ concurrent_jobs (settings w) →
  let s' := exec (ticks n) (Sys w Sleeping pl ds) in
  map d_job (dispatched s') = (map d_job ds ++ take n (job_queue w))%list
  ∧ job_queue (globals s') = drop n (job_queue w)
  ∧ pool s' = (pl ++ take n (job_queue w))%list
  ∧ pc s' = Sleeping
  ∧ rate_open (globals s').
Proof.
  induction n as [|n IH]; intros w pl ds Hr Hcap.
  - cbn. rewrite take_0, drop_0, !app_nil_r. done.
  - cbn [ticks]. rewrite exec_app.
    destruct (job_queue w) as [|j rest] eqn:Hq.
    + rewrite tick_empty_queue by done.
      specialize (IH w pl ds Hr). rewrite Hq in IH. cbn in IH.
      rewrite take_nil, drop_nil in IH. cbn. apply IH. lia.
    + cbn [length] in Hcap.
      rewrite (tick_pops_head w pl ds j rest) by (done || lia).
      match goal with |- context [exec (ticks n) (Sys ?w' _ ?pl' ?ds')] =>
        specialize (IH w' pl' ds') end.
      cbn in IH |- *. destruct IH as (H1 & H2 & H3 & H4 & H5); [done|lia|].
      rewrite H1, H2, H3, H4, map_app, <- !app_assoc. done.
Qed.

(** C2. Jobs are appended at the tail and taken from the head: after any
    sequence of enqueues onto an empty queue, [n] passes of the loop with
    neither limit binding hand the first [n] jobs to the executor in the
    order they were appended and leave the others queued; once the queue is
    empty a pass hands over nothing. *)
Theorem queue_is_fifo (w : world) (pl : list job) (ds : list dispatch)
    (js : list job) (n : nat) :
  job_queue w = [] →
  rate_open w →
  active_jobs w + Z.of_nat (length js) ≤ concurrent_jobs (settings w) →
  let s0 := exec (map Enqueue js) (Sys w Sleeping pl ds) in
  let s' := exec (ticks n) s0 in
  job_queue (globals s0) = js
  ∧ map d_job (dispatched s') = (map d_job ds ++ take n js)%list
  ∧ job_queue (globals s') = drop n js
  ∧ ((length js ≤ n)%nat →
     map d_job (dispatched s') = (map d_job ds ++ js)%list
     ∧ job_queue (globals s') = []
     ∧ exec tick s' = s').
Proof.
  intros Hq Hr Hcap. cbn zeta. rewrite exec_enqueue.
  unfold on_globals; cbn [globals pc pool dispatched].
  set (w0 := with_job_queue (λ q, (q ++ js)%list) w).
  assert (job_queue w0 = js) as Hq0 by (unfold w0; cbn; by rewrite Hq).
  split; [done|].
  destruct (ticks_fifo n w0 pl ds) as (H1 & H2 & H3 & H4 & H5).
  { done. }
  { rewrite Hq0. unfold w0; cbn. done. }
  rewrite Hq0 in H1, H2, H3.
  split; [done|]. split; [done|].
  intros Hn. rewrite H1, H2, take_ge, drop_ge by done.
  split; [done|]. split; [done|].
  destruct (exec (ticks n) (Sys w0 Sleeping pl ds)) as [w' p' pl' ds'].
  cbn in H2, H4, H5. subst p'.
  apply tick_empty_queue; [|done]. by rewrite H2, drop_ge.
Qed.

(** ** Category ids *)

Lemma category_ids_int_integers zs : category_ids_int (map IntLike zs) = zs.
Proof. induction zs as [|z zs IH]; cbn; by rewrite ?IH. Qed.

(** C8. The call that publishes a job built from a request with url-level
    ids [url_specific_cats], flag [use_auto_category] and batch-wide ids
    [category_ids] is decided in this order: (1) url-level ids, when
    non-empty, go to [create_post]; (2) else the batch-wide ids, when the
    request opted out of auto-classification and they are non-empty, go to
    [create_post]; (3) else [publish_article] is called with the fetched
    record and classifies by itself.  [submit_jobs] stores the ids decided
    by (1) and (2) in the queued job, [process_job] picks the call.  The ids
    go through [int()], which leaves a list of integers as it is. *)
Theorem category_precedence (ev : env)
    (url_specific_cats : option (list raw_int)) (use_auto_category : bool)
    (category_ids : list raw_int) (article_data : article) (rd : restaurant)
    (w : world) :
  let post_status := if auto_publish (settings w) then "publish" else "draft" in
  let create_post ids :=
    EvCreatePost (a_seo_title article_data) (a_html_content article_data)
      (a_slug article_data) (category_ids_int ids) (a_tags article_data)
      (a_meta_description article_data) (a_seo_title article_data)
      post_status in
  let job_cats :=
    resolve_category_ids url_specific_cats use_auto_category category_ids in
  publish_call job_cats article_data rd post_status
  = match url_specific_cats with
    | Some (c :: cs) => create_post (c :: cs)
    | _ =>
        match use_auto_category, category_ids with
        | false, c :: cs => create_post (c :: cs)
        | _, _ => EvPublishArticle article_data rd post_status
        end
    end
  ∧ calls (publish_stage ev job_cats article_data rd w).2
    = match publisher_init ev with
      | Some _ => calls w
      | None =>
          (calls w ++ [publish_call job_cats article_data rd post_status])%list
      end
  ∧ (∀ now_ms created_at url w0,
       job_queue (submit_url now_ms created_at url url_specific_cats
                             use_auto_category category_ids w0)
       = if is_duplicate url (job_status w0) then job_queue w0
         else (job_queue w0
               ++ [Job (make_job_id now_ms (length (job_queue w0))) url
                       job_cats])%list)
  ∧ ∀ zs, category_ids_int (map IntLike zs) = zs.
Proof.
  cbn zeta. split; [|split; [|split]].
  - destruct url_specific_cats as [[|c cs]|], use_auto_category,
      category_ids as [|c' cs']; reflexivity.
  - unfold publish_stage, mbind, M_bind, bind.
    destruct (publisher_init ev); cbn; [done|].
    destruct (publish_result ev) as [[p|]|e]; done.
  - intros now_ms created_at url w0. unfold submit_url.
    by destruct (is_duplicate url (job_status w0)).
  - apply category_ids_int_integers.
Qed.

(** ** Settings *)

(** C10. A settings update that succeeds replaces the whole record: each
    field is the value converted from the request, or the built-in default
    (10, False, 3) when the request does not have it; nothing of the former
    settings is kept. *)
Theorem settings_update_replaces (data : option settings_patch)
    (s s' : settings_t) :
  manage_settings_post data s = (true, s') →
  ∃ d, data = Some d
    ∧ int_or_default (pa_articles_per_hour d) 10 = Some (articles_per_hour s')
    ∧ auto_publish s' = default false (pa_auto_publish d)
    ∧ int_or_default (pa_concurrent_jobs d) 3 = Some (concurrent_jobs s')
    ∧ (pa_articles_per_hour d = None → articles_per_hour s' = 10)
    ∧ (pa_auto_publish d = None → auto_publish s' = false)
    ∧ (pa_concurrent_jobs d = None → concurrent_jobs s' = 3)
    ∧ ∀ t, manage_settings_post data t = (true, s').
Proof.
  unfold manage_settings_post. destruct data as [d|]; [|done].
  destruct (int_or_default (pa_articles_per_hour d) 10) as [aph|] eqn:Ha;
    [|done].
  destruct (int_or_default (pa_concurrent_jobs d) 3) as [cj|] eqn:Hc;
    [|done].
  cbn. intros [= <-]. exists d. cbn. rewrite Ha, Hc.
  repeat split; try done.
  - intros E. rewrite E in Ha. cbn in Ha. congruence.
  - by intros ->.
  - intros E. rewrite E in Hc. cbn in Hc. congruence.
Qed.

(** ** The hour window and the supervising loop *)

Lemma stale_loop n :
  exec (replicate n LoopStep) (Sys stale_world Sleeping [] [])
    = Sys stale_world Sleeping [] []
  ∨ exec (replicate n LoopStep) (Sys stale_world Sleeping [] [])
    = Sys stale_world (GotRate 10) [] [].
Proof.
  induction n as [|n IH]; [by left|].
  replace (S n) with (n + 1)%nat by lia.
  rewrite replicate_add, exec_app.
  destruct IH as [-> | ->]; [right | left]; reflexivity.
Qed.

(** C6, at the failing input. With ten completions in the hour window and
    the limit at ten, the loop reads [token_usage['hour']['count']] as it
    stands: however many of its actions run (however late), the window is
    never reset, the count read stays ten and the waiting job is never
    dispatched; [reset_token_stats_if_needed], which [record_token_usage]
    and the stats request call first, resets that window two hours after
    its start, after which a pass of the loop dispatches the job. *)
Theorem loop_reads_hour_count_without_reset (n : nat) :
  let s := exec (replicate n LoopStep) (Sys stale_world Sleeping [] []) in
  token_usage (globals s) = stale_usage
  ∧ dispatched s = []
  ∧ job_queue (globals s) = [waiting_job]
  ∧ u_hour (reset_token_stats_if_needed (2 * hour_us) stale_usage)
    = fresh_window (2 * hour_us)
  ∧ map d_job
      (dispatched (exec (StatsRequest (2 * hour_us) :: tick)
                        (Sys stale_world Sleeping [] [])))
    = [waiting_job].
Proof.
  cbn zeta. destruct (stale_loop n) as [-> | ->]; repeat split; reflexivity.
Qed.

(** ** Running [process_job] on a job that has its entry *)

Lemma update_status_ins q m u st a c j s f :
  update_status j f (World q (<[j:=s]> m) u st a c)
  = (Returns (), World q (<[j:=f s]> m) u st a c).
Proof.
  unfold update_status, with_job_status; cbn.
  by rewrite lookup_insert_eq, insert_insert_eq.
Qed.

Lemma emit_ins ev n q m u st a c j s :
  emit ev n j (World q (<[j:=s]> m) u st a c)
  = (match emit_raises ev n with Some e => Raises e | None => Returns () end,
     World q (<[j:=s]> m) u st a (c ++ [EvEmit s (emit_raises ev n)])%list).
Proof.
  unfold emit, get_status, mbind, M_bind, bind, modify, log_call; cbn.
  rewrite lookup_insert_eq. by destruct (emit_raises ev n).
Qed.

Lemma bind_run {A B} (m : M A) (k : A → M B) w :
  (m ≫= k) w
  = match m w with
    | (Returns a, w') => k a w'
    | (Raises e, w') => (Raises e, w')
    end.
Proof. reflexivity. Qed.


Lemma count_calls_app f l1 l2 :
  count_calls f (l1 ++ l2) = (count_calls f l1 + count_calls f l2)%nat.
Proof. unfold count_calls. by rewrite List.filter_app, length_app. Qed.

Arguments count_calls : simpl never.

Lemma count_calls_single f e :
  count_calls f [e] = if f e then 1%nat else 0%nat.
Proof. unfold count_calls; cbn. by destruct (f e). Qed.

Lemma publish_call_is_publish cats a rd st :
  is_publish (publish_call cats a rd st) = true.
Proof. by destruct cats as [[|]|]. Qed.

Lemma publish_call_is_record cats a rd st :
  is_record (publish_call cats a rd st) = false.
Proof. by destruct cats as [[|]|]. Qed.

Lemma publish_call_is_generate cats a rd st :
  is_generate (publish_call cats a rd st) = false.
Proof. by destruct cats as [[|]|]. Qed.

Lemma publish_call_emit_raised cats a rd st :
  emit_raised (publish_call cats a rd st) = false.
Proof. by destruct cats as [[|]|]. Qed.

(** Counts over a log that is spelled out. *)
Ltac count_log :=
  rewrite ?count_calls_app, ?count_calls_single;
  rewrite ?publish_call_is_publish, ?publish_call_is_record,
    ?publish_call_is_generate, ?publish_call_emit_raised;
  cbn [is_publish is_record is_generate is_scrape emit_raised].

Ltac run_step :=
  first
    [ rewrite bind_run
    | rewrite update_status_ins
    | rewrite emit_ins
    | progress cbv beta iota zeta
    | progress unfold log_call, with_token_usage
    | progress cbn [may_raise modify of_outcome gets ret raise fst snd
                    job_queue job_status token_usage settings active_jobs
                    calls] ].

Ltac run := repeat run_step.

Ltac unfold_job :=
  unfold process_job, try_finally, try_except, process_job_try,
    process_job_except, fetch_stage, generate_stage, publish_stage,
    try_except.

(** ** The fallback *)



(** ** The fetch precondition *)

Lemma photo_error_nonempty n : photo_error n ≠ EmptyString.
Proof. unfold photo_error. cbn. discriminate. Qed.

(** C4. When the fetch is reached and returns nothing usable (no record, or
    one without a name) or a record with fewer than four photos, the job
    ends in state ['error'] with the message of that failure in its error
    field, and neither [generate_article] nor one of the publisher's calls
    is made. *)
Theorem fetch_precondition_fails_job (ev : env) (job_id url : string)
    (category_ids : option (list raw_int)) (w : world) (s0 : job_state)
    (msg : string) :
  job_status w !! job_id = Some s0 →
  emit_raises ev 1 = None →
  emit_raises ev 2 = None →
  scraper_init ev = None →
  fetch_rejected ev msg →
  let w' := (process_job ev job_id url category_ids w).2 in
  (∃ s', job_status w' !! job_id = Some s'
      ∧ js_status s' = Error
      ∧ js_error s' = Some msg)
  ∧ msg ≠ EmptyString
  ∧ count_calls is_scrape (calls w') = S (count_calls is_scrape (calls w))
  ∧ count_calls is_generate (calls w') = count_calls is_generate (calls w)
  ∧ count_calls is_publish (calls w') = count_calls is_publish (calls w)
  ∧ count_calls is_record (calls w') = count_calls is_record (calls w)
  ∧ token_usage w' = token_usage w.
Proof.
  intros Hs He1 He2 Hsi Hrej.
  destruct w as [q m u st a c]; cbn in Hs.
  rewrite <- (insert_id m job_id s0 Hs).
  unfold fetch_rejected in Hrej.
  unfold_job.
  run. rewrite He1. run. rewrite He2. run. rewrite Hsi. run.
  destruct (scrape_result ev) as [[rd|]|e]; [| |done].
  - destruct Hrej as [[Hn ->] | (Hn & Hp & ->)].
    + run. rewrite Hn, String.eqb_refl. run.
      unfold release_slot, with_active_jobs; cbn.
      split; [eexists; split; [apply lookup_insert_eq|done]|].
      split; [done|]. repeat split; count_log; lia.
    + apply String.eqb_neq in Hn. apply Z.ltb_lt in Hp.
      run. rewrite Hn, Hp. run. unfold release_slot, with_active_jobs; cbn.
      split; [eexists; split; [apply lookup_insert_eq|done]|].
      split; [apply photo_error_nonempty|]. repeat split; count_log; lia.
  - subst msg. run. unfold release_slot, with_active_jobs; cbn.
    split; [eexists; split; [apply lookup_insert_eq|done]|].
    split; [done|]. repeat split; count_log; lia.
Qed.

(** ** Every way through [process_job] *)

Ltac split_oracle :=
  match goal with
  | |- context [match emit_raises ?ev ?n with _ => _ end] =>
      destruct (emit_raises ev n) eqn:?
  | |- context [may_raise ?o _] => destruct o eqn:?
  | |- context [of_outcome (scrape_result ?ev) _] =>
      destruct (scrape_result ev) as [[?|]|?] eqn:?
  | |- context [of_outcome (generate_result ?ev) _] =>
      destruct (generate_result ev) as [?|?] eqn:?
  | |- context [of_outcome (publish_result ?ev) _] =>
      destruct (publish_result ev) as [[?|]|?] eqn:?
  | |- context [match scrape_result ?ev with _ => _ end] =>
      destruct (scrape_result ev) as [[?|]|?] eqn:?
  | |- context [match generate_result ?ev with _ => _ end] =>
      destruct (generate_result ev) as [?|?] eqn:?
  | |- context [match publish_result ?ev with _ => _ end] =>
      destruct (publish_result ev) as [[?|]|?] eqn:?
  | |- context [if String.eqb ?a ?b then _ else _] =>
      destruct (String.eqb a b) eqn:?
  | |- context [if Z.ltb ?a ?b then _ else _] =>
      destruct (Z.ltb a b) eqn:?
  end.

Ltac run_all := repeat (run; try split_oracle).


(** ** Status events that raise *)


(** ** Concrete runs *)



Lemma active_jobs_within_cap_witness :
  (0 ≤ concurrent_jobs settings_init
   ∧ Forall (keeps_cap (concurrent_jobs settings_init)) demo_actions
   ∧ active_jobs (globals (exec demo_actions (init_sys 0 settings_init)))
     ≤ concurrent_jobs settings_init)
  ∧ (let s := exec before_lock (init_sys 0 settings_init) in
     pool (loop_step s) ≠ pool s
     ∧ ∃ c j rest,
         pc s = AtLock c
         ∧ job_queue (globals s) = j :: rest
         ∧ active_jobs (globals s) < c
         ∧ job_queue (globals (loop_step s)) = rest
         ∧ active_jobs (globals (loop_step s)) = active_jobs (globals s) + 1
         ∧ pool (loop_step s) = (pool s ++ [j])%list).
Proof.
  assert (0 ≤ concurrent_jobs settings_init) as H1 by (cbn; lia).
  assert (Forall (keeps_cap (concurrent_jobs settings_init)) demo_actions)
    as H2 by (repeat constructor).
  assert (let s := exec before_lock (init_sys 0 settings_init) in
          pool (loop_step s) ≠ pool s) as H3 by (vm_compute; discriminate).
  split.
  - split; [exact H1|]. split; [exact H2|].
    exact (proj2 (proj2 (active_jobs_within_cap 0 settings_init demo_actions))
             H1 H2).
  - split; [exact H3|].
    exact (proj1 (proj2 (active_jobs_within_cap 0 settings_init before_lock))
             H3).
Defined.

Lemma queue_is_fifo_witness :
  let w := init_world 0 settings_init in
  let js := [demo_job; demo_job2] in
  job_queue w = []
  ∧ rate_open w
  ∧ active_jobs w + Z.of_nat (length js) ≤ concurrent_jobs (settings w)
  ∧ (length js ≤ 3)%nat
  ∧ map d_job (dispatched (exec (ticks 3)
                             (exec (map Enqueue js) (Sys w Sleeping [] []))))
    = js.
Proof.
  cbv zeta.
  assert (job_queue (init_world 0 settings_init) = []) as H1 by reflexivity.
  assert (rate_open (init_world 0 settings_init)) as H2
    by (unfold rate_open; cbn; lia).
  assert (active_jobs (init_world 0 settings_init)
          + Z.of_nat (length [demo_job; demo_job2])
          ≤ concurrent_jobs (settings (init_world 0 settings_init))) as H3
    by (cbn; lia).
  assert (length [demo_job; demo_job2] ≤ 3)%nat as H4 by (cbn; lia).
  repeat (split; [assumption|]).
  exact (proj1 (proj2 (proj2 (proj2
           (queue_is_fifo (init_world 0 settings_init) [] []
              [demo_job; demo_job2] 3 H1 H2 H3))) H4)).
Defined.


Lemma fetch_precondition_fails_job_witness :
  job_status demo_world !! "job_1_0" = Some demo_state
  ∧ emit_raises env_few_photos 1 = None
  ∧ emit_raises env_few_photos 2 = None
  ∧ scraper_init env_few_photos = None
  ∧ fetch_rejected env_few_photos (photo_error 3)
  ∧ ∃ s', job_status (demo_run env_few_photos).2 !! "job_1_0" = Some s'
      ∧ js_status s' = Error
      ∧ js_error s' = Some (photo_error 3).
Proof.
  assert (job_status demo_world !! "job_1_0" = Some demo_state) as H1
    by (vm_compute; reflexivity).
  assert (fetch_rejected env_few_photos (photo_error 3)) as H2.
  { unfold fetch_rejected; cbn. right. split; [discriminate|].
    split; [lia|reflexivity]. }
  repeat (split; [first [assumption | reflexivity]|]).
  exact (proj1 (fetch_precondition_fails_job env_few_photos "job_1_0"
                  demo_url None demo_world demo_state (photo_error 3)
                  H1 eq_refl eq_refl eq_refl H2)).
Defined.


Lemma active_jobs_released_once_witness :
  pool (exec demo_actions (init_sys 0 settings_init)) = []
  ∧ active_jobs (globals (exec demo_actions (init_sys 0 settings_init))) = 0.
Proof.
  assert (pool (exec demo_actions (init_sys 0 settings_init)) = []) as H1
    by (vm_compute; reflexivity).
  split; [exact H1|].
  exact (proj2 (proj2 active_jobs_released_once 0 settings_init demo_actions)
           H1).
Defined.


Lemma settings_update_replaces_witness :
  let data := Some (Patch (Some (IntLike 20)) None None) in
  manage_settings_post data (Settings 5 true 8) = (true, Settings 20 false 3)
  ∧ ∃ d, data = Some d
      ∧ int_or_default (pa_articles_per_hour d) 10 = Some 20
      ∧ false = default false (pa_auto_publish d)
      ∧ int_or_default (pa_concurrent_jobs d) 3 = Some 3
      ∧ (pa_articles_per_hour d = None → 20 = 10)
      ∧ (pa_auto_publish d = None → false = false)
      ∧ (pa_concurrent_jobs d = None → 3 = 3)
      ∧ ∀ t, manage_settings_post data t = (true, Settings 20 false 3).
Proof.
  cbv zeta.
  assert (manage_settings_post (Some (Patch (Some (IntLike 20)) None None))
            (Settings 5 true 8) = (true, Settings 20 false 3)) as H1
    by reflexivity.
  split; [exact H1|].
  exact (settings_update_replaces _ _ _ H1).
Defined.

(** * Properties of the rest of the code *)

(** ** Url normalisation *)

Example normalize_docstring :
  normalize_restaurant_url
    "https://tabelog.com/hokkaido/A0112/A011203/1011581/dtlrvwlst/?x=1#top"
  = "https://tabelog.com/hokkaido/A0112/A011203/1011581/".
Proof. reflexivity. Qed.

Example normalize_other :
  normalize_restaurant_url "https://tabelog.com/hokkaido///"
  = "https://tabelog.com/hokkaido/".
Proof. reflexivity. Qed.

Lemma span_app p a b :
  Forall (λ c, p c = true) a → stops p b → span p (a ++ b) = (a, b).
Proof.
  intros Ha Hb. induction Ha as [|c a Hc Ha IH]; cbn.
  - destruct b as [|c b]; [done|]. cbn in Hb |- *. by rewrite Hb.
  - by rewrite Hc, IH.
Qed.

Lemma span_spec p l a b :
  span p l = (a, b) →
  l = (a ++ b)%list ∧ Forall (λ c, p c = true) a ∧ stops p b.
Proof.
  revert a b. induction l as [|c l IH]; intros a b; cbn.
  - by intros [= <- <-].
  - destruct (p c) eqn:Hc.
    + destruct (span p l) as [a' b']. intros [= <- <-].
      destruct (IH a' b' eq_refl) as (-> & Ha & Hb).
      split; [done|]. split; [by constructor|done].
    + intros [= <- <-]. split; [done|]. split; [constructor|done].
Qed.

Lemma strip_scheme_app s r :
  s = http ∨ s = https → strip_scheme (s ++ r) = Some (s, r).
Proof.
  intros [-> | ->]; unfold strip_scheme.
  - rewrite bool_decide_eq_false_2.
    + by rewrite bool_decide_eq_true_2.
    + destruct r; cbn; discriminate.
  - by rewrite bool_decide_eq_true_2.
Qed.

Lemma strip_scheme_spec l s r :
  strip_scheme l = Some (s, r) →
  l = (s ++ r)%list ∧ (s = http ∨ s = https).
Proof.
  unfold strip_scheme. repeat case_bool_decide; intros [= <- <-].
  - split; [|by right]. rewrite <- (take_drop 8 l) at 1. congruence.
  - split; [|by left]. rewrite <- (take_drop 7 l) at 1. congruence.
Qed.

Lemma segment_app seg rest :
  seg ≠ [] → Forall (λ c, not_slash c = true) seg →
  segment (seg ++ slash :: rest) = Some (seg, rest).
Proof.
  intros Hne Hs. unfold segment. rewrite span_app by done.
  by destruct seg.
Qed.

Lemma segment_spec l seg rest :
  segment l = Some (seg, rest) →
  l = (seg ++ slash :: rest)%list
  ∧ seg ≠ [] ∧ Forall (λ c, not_slash c = true) seg.
Proof.
  unfold segment. destruct (span not_slash l) as [a b] eqn:Hsp.
  destruct a as [|c a]; [done|]. destruct b as [|s b]; [done|].
  intros [= <- <-]. apply span_spec in Hsp as (-> & Ha & Hb).
  cbn in Hb. unfold not_slash in Hb. apply negb_false_iff in Hb.
  apply Ascii.eqb_eq in Hb as ->. done.
Qed.

Lemma slash_not_digit : is_digit slash = false.
Proof. reflexivity. Qed.

Lemma a_code_app ds rest :
  ds ≠ [] → Forall (λ c, is_digit c = true) ds →
  a_code (cap_a :: ds ++ slash :: rest) = Some (ds, rest).
Proof.
  intros Hne Hd. unfold a_code. rewrite Ascii.eqb_refl.
  rewrite span_app by (done || apply slash_not_digit).
  destruct ds; [done|]. by rewrite Ascii.eqb_refl.
Qed.

Lemma a_code_spec l ds rest :
  a_code l = Some (ds, rest) →
  l = (cap_a :: ds ++ slash :: rest)%list
  ∧ ds ≠ [] ∧ Forall (λ c, is_digit c = true) ds.
Proof.
  unfold a_code. destruct l as [|a l]; [done|].
  destruct (Ascii.eqb a cap_a) eqn:Ha; [|done].
  apply Ascii.eqb_eq in Ha as ->.
  destruct (span is_digit l) as [x y] eqn:Hsp.
  destruct x as [|c x]; [done|]. destruct y as [|s y]; [done|].
  destruct (Ascii.eqb s slash) eqn:Hs; [|done].
  apply Ascii.eqb_eq in Hs as ->. intros [= <- <-].
  apply span_spec in Hsp as (-> & Hx & _). done.
Qed.

Lemma digits_app ds rest :
  ds ≠ [] → Forall (λ c, is_digit c = true) ds → stops is_digit rest →
  digits (ds ++ rest) = Some (ds, rest).
Proof.
  intros Hne Hd Hr. unfold digits. rewrite span_app by done. by destruct ds.
Qed.

Lemma digits_spec l ds rest :
  digits l = Some (ds, rest) →
  l = (ds ++ rest)%list ∧ ds ≠ [] ∧ Forall (λ c, is_digit c = true) ds
  ∧ stops is_digit rest.
Proof.
  unfold digits. destruct (span is_digit l) as [x y] eqn:Hsp.
  destruct x as [|c x]; [done|]. intros [= <- <-].
  apply span_spec in Hsp as (-> & Hx & Hy). done.
Qed.

Lemma restaurant_prefix_app g t :
  canonical g → stops is_digit t → restaurant_prefix (g ++ t) = Some g.
Proof.
  intros [sc ho re a1 a2 id Hsc [Hho1 Hho2] [Hre1 Hre2] [H11 H12] [H21 H22]
            [Hid1 Hid2]] Ht.
  unfold restaurant_prefix. rewrite <- !app_assoc.
  rewrite strip_scheme_app by done. cbn [mbind option_bind].
  cbn [app]. rewrite segment_app by done. cbn [mbind option_bind].
  rewrite segment_app by done. cbn [mbind option_bind].
  rewrite a_code_app by done. cbn [mbind option_bind].
  rewrite a_code_app by done. cbn [mbind option_bind].
  rewrite digits_app by done. cbn [mbind option_bind]. done.
Qed.

Lemma restaurant_prefix_spec l g :
  restaurant_prefix l = Some g →
  canonical g ∧ ∃ t, l = (g ++ t)%list ∧ stops is_digit t.
Proof.
  unfold restaurant_prefix. intros H.
  destruct (strip_scheme l) as [[sc l1]|] eqn:E1; [|done].
  cbn [mbind option_bind] in H.
  destruct (segment l1) as [[ho l2]|] eqn:E2; [|done].
  cbn [mbind option_bind] in H.
  destruct (segment l2) as [[re l3]|] eqn:E3; [|done].
  cbn [mbind option_bind] in H.
  destruct (a_code l3) as [[a1 l4]|] eqn:E4; [|done].
  cbn [mbind option_bind] in H.
  destruct (a_code l4) as [[a2 l5]|] eqn:E5; [|done].
  cbn [mbind option_bind] in H.
  destruct (digits l5) as [[id l6]|] eqn:E6; [|done].
  cbn [mbind option_bind] in H. injection H as <-.
  apply strip_scheme_spec in E1 as (-> & Hsc).
  apply segment_spec in E2 as (-> & Hho).
  apply segment_spec in E3 as (-> & Hre).
  apply a_code_spec in E4 as (-> & Ha1).
  apply a_code_spec in E5 as (-> & Ha2).
  apply digits_spec in E6 as (-> & Hid1 & Hid2 & Ht).
  split; [by constructor|].
  exists l6. split; [|done]. cbn.
  repeat first [rewrite <- app_assoc | rewrite <- app_comm_cons]. done.
Qed.

Lemma span_fst_app p a b :
  Forall (λ c, p c = true) a → (span p (a ++ b)).1 = (a ++ (span p b).1)%list.
Proof.
  induction 1 as [|c a Hc Ha IH]; cbn; [done|].
  rewrite Hc. destruct (span p (a ++ b)) as [x y]. cbn in *. by rewrite IH.
Qed.

Lemma before_app c g t :
  free c g → before c (g ++ t) = (g ++ before c t)%list.
Proof. apply span_fst_app. Qed.

Lemma before_spec c l : free c (before c l) ∧ ∃ r, l = (before c l ++ r)%list.
Proof.
  unfold before. destruct (span _ l) as [a b] eqn:Hsp.
  apply span_spec in Hsp as (-> & Ha & _). split; [done|]. by exists b.
Qed.

Lemma before_id c l : free c l → before c l = l.
Proof.
  intros H. unfold before.
  rewrite <- (app_nil_r l) at 1. by rewrite span_app.
Qed.

Lemma before_stops p c t : stops p t → stops p (before c t).
Proof.
  destruct t as [|d t]; [done|]. unfold before. cbn.
  destruct (negb _); [|done]. by destruct (span _ t).
Qed.

Lemma free_app c a b : free c (a ++ b) ↔ free c a ∧ free c b.
Proof. apply Forall_app. Qed.

(** What is left after cutting the query and the fragment holds neither
    [?] nor [#]. *)
Lemma cut_free l :
  free qmark (before hash (before qmark l))
  ∧ free hash (before hash (before qmark l)).
Proof.
  destruct (before_spec qmark l) as [Hq _].
  destruct (before_spec hash (before qmark l)) as [Hh [r Hr]].
  split; [|done]. rewrite Hr in Hq. by apply free_app in Hq as [? _].
Qed.

Lemma cut_id l :
  free qmark l → free hash l → before hash (before qmark l) = l.
Proof. intros Hq Hh. by rewrite (before_id qmark), before_id. Qed.

Lemma normalize_chars_prefix g t :
  canonical g → free qmark g → free hash g → stops is_digit t →
  normalize_chars (g ++ t) = (g ++ [slash])%list.
Proof.
  intros Hg Hq Hh Ht. unfold normalize_chars.
  rewrite before_app by done. rewrite before_app by done.
  rewrite restaurant_prefix_app; [done..|].
  by do 2 apply before_stops.
Qed.

Lemma rstrip_snoc x : rstrip (x ++ [slash]) = rstrip x.
Proof.
  unfold rstrip. rewrite rev_unit. cbn.
  by destruct (span _ (rev x)).
Qed.

Lemma rstrip_spec l :
  ∃ sl, l = (rstrip l ++ sl)%list
        ∧ Forall (λ c, c = slash) sl
        ∧ stops (Ascii.eqb slash) (rev (rstrip l)).
Proof.
  unfold rstrip. destruct (span _ (rev l)) as [a b] eqn:Hsp.
  apply span_spec in Hsp as (Hl & Ha & Hb). cbn.
  exists (rev a). split; [|split].
  - rewrite <- rev_app_distr, <- Hl. by rewrite rev_involutive.
  - apply List.Forall_rev in Ha. eapply List.Forall_impl; [|exact Ha].
    intros c Hc. symmetry. by apply Ascii.eqb_eq.
  - by rewrite rev_involutive.
Qed.

Lemma rstrip_idem l : rstrip (rstrip l) = rstrip l.
Proof.
  destruct (rstrip_spec l) as (sl & _ & _ & Hb).
  unfold rstrip at 1.
  rewrite <- (app_nil_l (rev (rstrip l))) at 1.
  rewrite span_app by (done || constructor). cbn. apply rev_involutive.
Qed.

Lemma app_eq_snoc (g t x : list ascii) s :
  (g ++ t = x ++ [s])%list →
  (t = [] ∧ g = (x ++ [s])%list)
  ∨ ∃ t', t = (t' ++ [s])%list ∧ x = (g ++ t')%list.
Proof.
  destruct t as [|e t' _] using rev_ind.
  - rewrite app_nil_r. by left.
  - rewrite app_assoc. intros [<- <-]%app_inj_tail. right. by exists t'.
Qed.

Lemma canonical_last g :
  canonical g → ∃ g' d, g = (g' ++ [d])%list ∧ is_digit d = true.
Proof.
  intros [sc ho re a1 a2 id _ _ _ _ _ [Hne Hd]]. revert Hne Hd.
  destruct id as [|e id' _] using rev_ind; intros Hne Hd; [done|].
  apply Forall_app in Hd as [_ Hd]. rewrite Forall_singleton in Hd.
  eexists _, e. split; [|exact Hd].
  by rewrite !app_assoc.
Qed.

Lemma restaurant_prefix_none u :
  restaurant_prefix u = None →
  restaurant_prefix (rstrip u ++ [slash]) = None.
Proof.
  intros Hn. destruct (restaurant_prefix (_ ++ _)) as [g|] eqn:E; [|done].
  exfalso. apply restaurant_prefix_spec in E as (Hg & t & Ht & Hs).
  destruct (rstrip_spec u) as (sl & Hu & Hsl & _).
  apply eq_sym, app_eq_snoc in Ht as [[_ Hx] | (t' & -> & Hx)].
  - destruct (canonical_last g Hg) as (g' & d & Hd & Hdig).
    rewrite Hd in Hx. apply app_inj_tail in Hx as [_ ->]. done.
  - rewrite Hu, Hx, <- app_assoc in Hn.
    rewrite restaurant_prefix_app in Hn; [done..|].
    destruct t' as [|c t']; [|done]. cbn.
    destruct sl as [|c sl]; [done|]. by apply Forall_cons in Hsl as [-> _].
Qed.

Lemma free_rstrip c u : free c u → free c (rstrip u).
Proof.
  intros H. destruct (rstrip_spec u) as (sl & Hu & _).
  rewrite Hu in H. by apply free_app in H as [? _].
Qed.

Lemma normalize_chars_idem l :
  normalize_chars (normalize_chars l) = normalize_chars l.
Proof.
  unfold normalize_chars at 2 3.
  destruct (cut_free l) as [Hq Hh].
  set (u := before hash (before qmark l)) in *. clearbody u.
  destruct (restaurant_prefix u) as [g|] eqn:E.
  - apply restaurant_prefix_spec in E as (Hg & t & -> & _).
    apply free_app in Hq as [Hq _]. apply free_app in Hh as [Hh _].
    by apply normalize_chars_prefix.
  - unfold normalize_chars. rewrite cut_id.
    + rewrite restaurant_prefix_none by done.
      by rewrite rstrip_snoc, rstrip_idem.
    + apply free_app. split; [by apply free_rstrip|by repeat constructor].
    + apply free_app. split; [by apply free_rstrip|by repeat constructor].
Qed.

Lemma list_ascii_of_string_app (a b : string) :
  list_ascii_of_string (a +:+ b)
  = (list_ascii_of_string a ++ list_ascii_of_string b)%list.
Proof. induction a as [|c a IH]; simpl; [done|]. by rewrite IH. Qed.

Lemma string_of_list_ascii_app (a b : list ascii) :
  string_of_list_ascii (a ++ b)
  = string_of_list_ascii a +:+ string_of_list_ascii b.
Proof. induction a as [|c a IH]; simpl; [done|]. by rewrite IH. Qed.

(** X20. The url of a restaurant page
    ([scheme://host/region/A<n>/A<n>/<id>]) followed by anything that does
    not start with a digit (a sub-page, slashes, a query, a fragment, or
    nothing) is normalised to that page with one trailing slash: all the
    sub-pages of a restaurant get the same url. *)
Theorem normalize_collapses_subpages (base rest : string) :
  restaurant_page base →
  stops is_digit (list_ascii_of_string rest) →
  normalize_restaurant_url (base +:+ rest) = base +:+ "/".
Proof.
  intros (Hg & Hq & Hh) Hr. unfold normalize_restaurant_url.
  rewrite list_ascii_of_string_app, normalize_chars_prefix by done.
  by rewrite string_of_list_ascii_app, string_of_list_ascii_of_string.
Qed.

(** X21. Normalising twice is normalising once: a normalised url is a
    fixed point, whether it matched the restaurant pattern or only had its
    query, fragment and trailing slashes cut. *)
Theorem normalize_idempotent (url : string) :
  normalize_restaurant_url (normalize_restaurant_url url)
  = normalize_restaurant_url url.
Proof.
  unfold normalize_restaurant_url.
  by rewrite list_ascii_of_string_of_list_ascii, normalize_chars_idem.
Qed.

(** ** The order of dispatch *)

Lemma job_history_step s a :
  job_history (step s a)
  = (job_history s ++ match a with Enqueue j => [j] | _ => [] end)%list.
Proof.
  unfold job_history. destruct s as [w p pl ds], a; cbn;
    rewrite ?app_nil_r; try done.
  - destruct p; cbn; rewrite ?app_nil_r; try done.
    + by destruct (_ <=? _).
    + unfold locked_block; cbn.
      destruct (job_queue w) as [|j rest] eqn:Hq; cbn; [by rewrite Hq|].
      destruct (_ <? _); cbn; [|by rewrite Hq].
      by rewrite map_app, <- app_assoc.
  - unfold finish_job; cbn. destruct (pl !! i); cbn; [|done].
    by destruct (process_job_active ev (job_id j) (job_url j)
                   (job_category_ids j) w) as (_ & -> & _).
  - by rewrite app_assoc.
Qed.

Lemma job_history_exec acts s :
  job_history (exec acts s) = (job_history s ++ enqueued acts)%list.
Proof.
  revert s. induction acts as [|a acts IH]; intros s.
  - cbn. by rewrite app_nil_r.
  - rewrite exec_cons, IH, job_history_step, <- app_assoc.
    by destruct a.
Qed.

(** X1. Whatever the threads do in between, the jobs handed to the executor
    followed by the jobs still in [job_queue] are exactly the jobs appended,
    in the order of their [append]: no job is lost, none is handed over
    twice, none overtakes another. *)
Theorem dispatch_order_is_submission_order (now : Z) (st : settings_t)
    (acts : list action) :
  let s := exec acts (init_sys now st) in
  (map d_job (dispatched s) ++ job_queue (globals s))%list = enqueued acts.
Proof.
  cbn zeta. pose proof (job_history_exec acts (init_sys now st)) as H.
  unfold job_history in H. by rewrite H.
Qed.

(** ** The rate limit *)

Lemma loop_gated w aph pl ds n :
  articles_per_hour (settings w)
    ≤ c_count (w_counters (u_hour (token_usage w))) →
  aph ≤ c_count (w_counters (u_hour (token_usage w))) →
  (exec (replicate n LoopStep) (Sys w Sleeping pl ds) = Sys w Sleeping pl ds
   ∨ exec (replicate n LoopStep) (Sys w Sleeping pl ds)
     = Sys w (GotRate (articles_per_hour (settings w))) pl ds)
  ∧ (exec (replicate n LoopStep) (Sys w (GotRate aph) pl ds)
     = Sys w Sleeping pl ds
     ∨ exec (replicate n LoopStep) (Sys w (GotRate aph) pl ds)
       = Sys w (GotRate (articles_per_hour (settings w))) pl ds
     ∨ exec (replicate n LoopStep) (Sys w (GotRate aph) pl ds)
       = Sys w (GotRate aph) pl ds).
Proof.
  intros Hlim. revert aph. induction n as [|n IH]; intros aph Ha.
  - split; [by left | by right; right].
  - cbn [replicate]. rewrite !exec_cons. cbn.
    destruct (Z.leb_spec aph (c_count (w_counters (u_hour (token_usage w)))));
      [|lia].
    split.
    + destruct (proj2 (IH _ Hlim)) as [->| [->| ->]]; auto.
    + destruct (proj1 (IH _ Hlim)) as [->| ->]; auto.
Qed.

(** X2. While the hour window's count is at or above
    [settings['articles_per_hour']] (a limit of zero or less always is),
    the supervising loop on its own hands nothing to the executor and
    changes none of the globals, however many passes it makes. *)
Theorem rate_limit_blocks_dispatch (w : world) (pl : list job)
    (ds : list dispatch) (n : nat) :
  articles_per_hour (settings w)
    ≤ c_count (w_counters (u_hour (token_usage w))) →
  let s := exec (replicate n LoopStep) (Sys w Sleeping pl ds) in
  globals s = w ∧ pool s = pl ∧ dispatched s = ds.
Proof.
  intros Hlim. cbn zeta.
  destruct (proj1 (loop_gated w _ pl ds n Hlim Hlim)) as [-> | ->]; done.
Qed.

(** ** The usage windows *)

Lemma reset_if_fresh now secs x :
  0 < secs → now - w_timestamp (reset_if now secs x) < secs * 1000000.
Proof.
  intros Hs. unfold reset_if, elapsed_ge.
  destruct (Z.leb_spec (secs * 1000000) (now - w_timestamp x)); cbn; lia.
Qed.

Lemma reset_if_idem now secs x :
  0 < secs → reset_if now secs (reset_if now secs x) = reset_if now secs x.
Proof.
  intros Hs. apply reset_if_early. by apply reset_if_fresh.
Qed.

(** X3. After [reset_token_stats_if_needed] no window is overdue at that
    time, so a second call at the same time changes nothing; a window that
    was not overdue is left as it was, and the total is never reset. *)
Theorem reset_leaves_no_window_overdue (now : Z) (u : usage) :
  let u' := reset_token_stats_if_needed now u in
  (∀ p, ¬ overdue now p u')
  ∧ reset_token_stats_if_needed now u' = u'
  ∧ (∀ p, ¬ overdue now p u → timed_window p u' = timed_window p u)
  ∧ (∀ p, overdue now p u → timed_window p u' = fresh_window now)
  ∧ u_total u' = u_total u.
Proof.
  cbn zeta. split; [|split; [|split; [|split]]].
  - intros p. unfold overdue.
    destruct p; cbn;
      match goal with |- ¬ (?s * _ ≤ _ - w_timestamp (reset_if _ _ ?x)) =>
        pose proof (reset_if_fresh now s x) end; lia.
  - unfold reset_token_stats_if_needed; cbn.
    by rewrite !reset_if_idem by lia.
  - intros p H. unfold overdue in H.
    destruct p; cbn in *; apply reset_if_early; lia.
  - intros p H. unfold overdue in H.
    destruct p; cbn in *; by apply reset_if_due.
  - done.
Qed.

(** ** Who writes the usage *)

Lemma tracks_ret {A} (a : A) : tracks_usage (ret a).
Proof. intros w. by exists []. Qed.

Lemma tracks_raise {A} e : tracks_usage (@raise A e).
Proof. intros w. by exists []. Qed.

Lemma records_usage_trans w1 w2 w3 :
  records_usage w1 w2 → records_usage w2 w3 → records_usage w1 w3.
Proof.
  intros (l1 & H1 & C1) (l2 & H2 & C2). exists (l1 ++ l2)%list.
  rewrite foldl_app, <- H1, H2, C2, C1, length_app. split; [done|lia].
Qed.

Lemma tracks_bind {A B} (m : M A) (k : A → M B) :
  tracks_usage m → (∀ a, tracks_usage (k a)) → tracks_usage (m ≫= k).
Proof.
  intros Hm Hk w. unfold mbind, M_bind, bind.
  specialize (Hm w). destruct (m w) as [[a|e] w']; cbn in *; [|done].
  eapply records_usage_trans; [done|]. apply Hk.
Qed.

Lemma tracks_try_except {A} (m : M A) h :
  tracks_usage m → (∀ e, tracks_usage (h e)) → tracks_usage (try_except m h).
Proof.
  intros Hm Hh w. unfold try_except.
  specialize (Hm w). destruct (m w) as [[a|e] w']; cbn in *; [done|].
  eapply records_usage_trans; [done|]. apply Hh.
Qed.

Lemma tracks_update_status j f : tracks_usage (update_status j f).
Proof.
  intros w. exists []. unfold update_status.
  by destruct (job_status w !! j).
Qed.

Lemma tracks_get_status j : tracks_usage (get_status j).
Proof.
  intros w. exists []. unfold get_status. by destruct (job_status w !! j).
Qed.

Lemma tracks_log e : is_record e = false → tracks_usage (modify (log_call e)).
Proof.
  intros He w. exists []. cbn. split; [done|].
  rewrite count_calls_app, count_calls_single, He. lia.
Qed.

Lemma tracks_gets {A} (f : world → A) : tracks_usage (gets f).
Proof. intros w. by exists []. Qed.

Lemma tracks_of_outcome {A} (r : outcome A) : tracks_usage (of_outcome r).
Proof. intros w. by exists []. Qed.

Lemma tracks_may_raise o : tracks_usage (may_raise o).
Proof. destruct o; intros w; by exists []. Qed.

Create HintDb tracks.
#[local] Hint Resolve tracks_ret tracks_raise tracks_update_status
  tracks_get_status tracks_gets tracks_of_outcome tracks_may_raise : tracks.
#[local] Hint Extern 1 (tracks_usage (modify (log_call _))) =>
  apply tracks_log; first [reflexivity | apply publish_call_is_record] : tracks.

Ltac solve_tracks :=
  repeat first
    [ solve [auto with tracks]
    | apply tracks_bind; [| intros ?]
    | apply tracks_try_except; [| intros ?]
    | match goal with
      | |- tracks_usage (match ?x with _ => _ end) => destruct x
      | |- tracks_usage (if ?x then _ else _) => destruct x
      end ].

Lemma tracks_emit ev n j : tracks_usage (emit ev n j).
Proof. unfold emit. solve_tracks. Qed.
#[local] Hint Resolve tracks_emit : tracks.

Lemma tracks_fetch_stage ev url : tracks_usage (fetch_stage ev url).
Proof. unfold fetch_stage. solve_tracks. Qed.

Lemma tracks_generate_stage ev rd : tracks_usage (generate_stage ev rd).
Proof.
  intros w. unfold generate_stage, try_except, mbind, M_bind, bind.
  destruct (generator_setup ev); cbn; [by exists []|].
  destruct (generate_result ev) as [a|e]; cbn.
  - exists [RecordCall (record_now ev) (len (r_repr rd) / 4)
                       (len (a_html_content a) / 4)
                       (token_cost (len (r_repr rd) / 4)
                                   (len (a_html_content a) / 4))].
    split; [done|]. unfold with_token_usage, log_call; cbn. count_log. lia.
  - exists []. split; [done|]. unfold log_call; cbn. count_log. lia.
Qed.

Lemma tracks_publish_stage ev cats a rd :
  tracks_usage (publish_stage ev cats a rd).
Proof. unfold publish_stage. solve_tracks. Qed.
#[local] Hint Resolve tracks_fetch_stage tracks_generate_stage
  tracks_publish_stage : tracks.






(** ** The states [process_job] ends in *)

(** X5. [process_job] on a job that has its entry never leaves it
    ['queued'] or ['processing']: the entry ends ['completed'] or
    ['error'].  ['completed'] comes with progress 100, a result, the error
    field untouched and a normal return; ['error'] comes with the error
    field set; the progress is one of the values the code assigns. *)
Theorem process_job_ends_terminal (ev : env) (job_id url : string)
    (category_ids : option (list raw_int)) (w : world) (s0 : job_state)
    (r : outcome ()) (w' : world) :
  job_status w !! job_id = Some s0 →
  process_job ev job_id url category_ids w = (r, w') →
  ∃ s', job_status w' !! job_id = Some s'
    ∧ (js_status s' = Completed ∨ js_status s' = Error)
    ∧ (js_status s' = Completed →
       r = Returns () ∧ js_progress s' = 100 ∧ is_Some (js_result s')
       ∧ js_error s' = js_error s0)
    ∧ (js_status s' = Error → is_Some (js_error s'))
    ∧ (r ≠ Returns () → js_status s' = Error)
    ∧ js_progress s' ∈ [10; 20; 40; 50; 70; 80; 100].
Proof.
  intros Hs.
  destruct w as [q m u st a c]; cbn in Hs.
  rewrite <- (insert_id m job_id s0 Hs).
  unfold_job. run_all.
  all: unfold release_slot, with_active_jobs; cbn;
       intros Hrun; injection Hrun as <- <-; cbn.
  all: eexists; split; [apply lookup_insert_eq|]; cbn.
  all: split; [first [by left | by right]|].
  all: split; [intros Hc; first [discriminate Hc | by eauto]|].
  all: split; [intros He; first [discriminate He | by eauto]|].
  all: split; [intros Hr; first [done | by destruct Hr]|].
  all: set_solver.
Qed.

(** ** What [process_job] touches *)

Lemma touches_only_refl j w : touches_only j w w.
Proof. split; [done|]. by destruct (job_status w !! j). Qed.

Lemma touches_only_trans j w1 w2 w3 :
  touches_only j w1 w2 → touches_only j w2 w3 → touches_only j w1 w3.
Proof.
  intros [H1 I1] [H2 I2]. split.
  - intros k Hk. by rewrite H2, H1.
  - destruct (job_status w1 !! j), (job_status w2 !! j),
      (job_status w3 !! j); try done.
    unfold same_job in *. destruct I1 as (E1 & E2 & E3), I2 as (F1 & F2 & F3).
    by rewrite F1, F2, F3.
Qed.

Lemma confined_same_status {A} j (m : M A) :
  (∀ w, job_status (m w).2 = job_status w) → confined j m.
Proof. intros H w. split; rewrite H; [done|]. by destruct (_ !! j). Qed.

Lemma confined_bind {A B} j (m : M A) (k : A → M B) :
  confined j m → (∀ a, confined j (k a)) → confined j (m ≫= k).
Proof.
  intros Hm Hk w. unfold mbind, M_bind, bind.
  specialize (Hm w). destruct (m w) as [[a|e] w']; cbn in *; [|done].
  eapply touches_only_trans; [done|]. apply Hk.
Qed.

Lemma confined_try_except {A} j (m : M A) h :
  confined j m → (∀ e, confined j (h e)) → confined j (try_except m h).
Proof.
  intros Hm Hh w. unfold try_except.
  specialize (Hm w). destruct (m w) as [[a|e] w']; cbn in *; [done|].
  eapply touches_only_trans; [done|]. apply Hh.
Qed.

Lemma confined_update_status j f :
  (∀ s, same_job s (f s)) → confined j (update_status j f).
Proof.
  intros Hf w. unfold update_status.
  destruct (job_status w !! j) as [s|] eqn:Hj; cbn.
  - split; cbn.
    + intros k Hk. by rewrite lookup_insert_ne.
    + rewrite Hj, lookup_insert_eq. apply Hf.
  - apply touches_only_refl.
Qed.

Lemma confined_get_status j : confined j (get_status j).
Proof.
  apply confined_same_status. intros w. unfold get_status.
  by destruct (job_status w !! j).
Qed.

Lemma confined_modify j f :
  (∀ w, job_status (f w) = job_status w) → confined j (modify f).
Proof. intros H. by apply confined_same_status. Qed.

Lemma confined_ret {A} j (a : A) : confined j (ret a).
Proof. by apply confined_same_status. Qed.

Lemma confined_raise {A} j e : confined j (@raise A e).
Proof. by apply confined_same_status. Qed.

Lemma confined_gets {A} j (f : world → A) : confined j (gets f).
Proof. by apply confined_same_status. Qed.

Lemma confined_of_outcome {A} j (r : outcome A) : confined j (of_outcome r).
Proof. by apply confined_same_status. Qed.

Lemma confined_may_raise j o : confined j (may_raise o).
Proof. destruct o; by apply confined_same_status. Qed.

Create HintDb confined.
#[local] Hint Resolve confined_ret confined_raise confined_get_status
  confined_gets confined_of_outcome confined_may_raise : confined.
#[local] Hint Extern 1 (confined _ (update_status _ _)) =>
  apply confined_update_status; intros ?; repeat split : confined.
#[local] Hint Extern 1 (confined _ (modify _)) =>
  apply confined_modify; intros ?; reflexivity : confined.

Ltac solve_confined :=
  repeat first
    [ solve [auto with confined]
    | apply confined_bind; [| intros ?]
    | apply confined_try_except; [| intros ?]
    | match goal with
      | |- confined _ (match ?x with _ => _ end) => destruct x
      | |- confined _ (if ?x then _ else _) => destruct x
      end ].

Lemma confined_emit ev n j : confined j (emit ev n j).
Proof. unfold emit. solve_confined. Qed.
#[local] Hint Resolve confined_emit : confined.

Lemma confined_fetch_stage j ev url : confined j (fetch_stage ev url).
Proof. unfold fetch_stage. solve_confined. Qed.

Lemma confined_generate_stage j ev rd : confined j (generate_stage ev rd).
Proof. unfold generate_stage. solve_confined. Qed.

Lemma confined_publish_stage j ev cats a rd :
  confined j (publish_stage ev cats a rd).
Proof. unfold publish_stage. solve_confined. Qed.
#[local] Hint Resolve confined_fetch_stage confined_generate_stage
  confined_publish_stage : confined.

Lemma process_job_touches_only ev job_id url category_ids w :
  touches_only job_id w (process_job ev job_id url category_ids w).2.
Proof.
  assert (confined job_id
            (try_except (process_job_try ev job_id url category_ids)
                        (process_job_except ev job_id))) as H.
  { apply confined_try_except; [|intros e];
      unfold process_job_try, process_job_except; solve_confined. }
  specialize (H w). revert H.
  unfold process_job, try_finally.
  destruct (try_except _ _ w) as [r w1]; cbn. done.
Qed.

(** X6. Whatever the collaborators do, [process_job] changes no entry of
    [job_status] but its own job's, creates and deletes none, keeps the
    job id, url and creation time of its entry, and leaves [job_queue] and
    [settings] alone. *)
Theorem process_job_confined (ev : env) (job_id url : string)
    (category_ids : option (list raw_int)) (w : world) :
  let w' := (process_job ev job_id url category_ids w).2 in
  (∀ k, k ≠ job_id → job_status w' !! k = job_status w !! k)
  ∧ match job_status w !! job_id, job_status w' !! job_id with
    | Some s, Some s' =>
        js_job_id s' = js_job_id s ∧ js_url s' = js_url s
        ∧ js_created_at s' = js_created_at s
    | None, None => True
    | _, _ => False
    end
  ∧ job_queue w' = job_queue w
  ∧ settings w' = settings w.
Proof.
  cbn zeta.
  destruct (process_job_active ev job_id url category_ids w)
    as (_ & Hq & Hst).
  destruct (process_job_touches_only ev job_id url category_ids w)
    as [H1 H2].
  done.
Qed.

(** ** More runs of [process_job] *)

(** X7. A job that has no entry in [job_status] (it was popped before
    [submit_jobs] registered it): [process_job] raises the [KeyError] of the
    first assignment out of its handler, calls no collaborator and emits
    nothing, and still takes one off [active_jobs]. *)
Theorem process_job_without_entry (ev : env) (job_id url : string)
    (category_ids : option (list raw_int)) (w : world) :
  job_status w !! job_id = None →
  process_job ev job_id url category_ids w
  = (Raises (KeyError job_id), release_slot w).
Proof.
  intros Hs. unfold_job. rewrite bind_run. unfold update_status at 1.
  rewrite Hs. cbv beta iota. rewrite bind_run. unfold update_status at 1.
  rewrite Hs. reflexivity.
Qed.


(** X9. When the fetch and the status events go through and the
    publishing step fails, the job ends in state ['error'] with the
    message of that failure and no result, whether the article was
    generated or is the fallback; the [record_token_usage] of a generated
    article stays made although nothing was published. *)
Theorem publish_failure_fails_job (ev : env) (job_id url : string)
    (category_ids : option (list raw_int)) (w : world) (s0 : job_state)
    (rd : restaurant) (msg : string) :
  job_status w !! job_id = Some s0 →
  (∀ n, emit_raises ev n = None) →
  scraper_init ev = None →
  scrape_result ev = Returns (Some rd) →
  r_name rd ≠ EmptyString →
  4 ≤ r_photo_count rd →
  publish_fails ev msg →
  let w' := (process_job ev job_id url category_ids w).2 in
  (∃ s', job_status w' !! job_id = Some s'
     ∧ js_status s' = Error
     ∧ js_error s' = Some msg
     ∧ js_result s' = js_result s0
     ∧ js_progress s' = 80)
  ∧ count_calls is_record (calls w')
    = (count_calls is_record (calls w)
       + match generator_setup ev, generate_result ev with
         | None, Returns _ => 1
         | _, _ => 0
         end)%nat.
Proof.
  intros Hs He Hsi Hsr Hname Hphoto Hpub.
  destruct w as [q m u st a c]; cbn in Hs.
  rewrite <- (insert_id m job_id s0 Hs).
  apply String.eqb_neq in Hname. apply Z.ltb_ge in Hphoto.
  unfold publish_fails in Hpub.
  unfold_job.
  run. rewrite !He. run. rewrite Hsi. run. rewrite Hsr. run.
  rewrite Hname, Hphoto. run. rewrite !He. run.
  destruct (generator_setup ev) as [ge|]; run;
    [|destruct (generate_result ev) as [art|ge]; run];
    rewrite !He; run;
    (destruct (publisher_init ev) as [pe|]; run;
     [|destruct (publish_result ev) as [[p|]|pe]; [done| |]; run]);
    rewrite ?He; run; subst msg;
    unfold release_slot, with_active_jobs; cbn;
    (split; [eexists; split; [apply lookup_insert_eq|done]|]);
    count_log; lia.
Qed.

(** ** Settings updates that fail *)


(** ** [submit_jobs] *)

Lemma is_duplicate_spec url m : is_duplicate url m = true ↔ has_url url m.
Proof.
  unfold is_duplicate, has_url. rewrite existsb_exists. split.
  - intros (s & Hin & Heq). apply in_map_iff in Hin as ([k s'] & <- & Hin).
    apply list_elem_of_In, elem_of_map_to_list in Hin.
    exists k, s'. split; [done|]. by apply String.eqb_eq.
  - intros (k & s & Hk & Hu). exists s. split.
    + apply in_map_iff. exists (k, s). split; [done|].
      by apply list_elem_of_In, elem_of_map_to_list.
    + by apply String.eqb_eq.
Qed.












(** A second [add_job] of the same url right after the first adds
    nothing. *)
Lemma add_job_twice env req cats cats' st url :
  add_job env req cats' (add_job env req cats st url) url
  = add_job env req cats st url.
Proof.
  destruct (is_duplicate url (job_status (ss_world st))) eqn:Hd.
  - unfold add_job. rewrite Hd. by rewrite Hd.
  - unfold add_job. rewrite Hd. cbn.
    rewrite (proj2 (is_duplicate_spec url _)); [done|].
    eexists _, _. split; [apply lookup_insert_eq|done].
Qed.

(** ** Job ids *)

Lemma pretty_N_go_no_sep x s :
  no_sep s = true → no_sep (pretty_N_go x s) = true.
Proof.
  revert s. induction (N.lt_wf_0 x) as [x _ IH]; intros s Hs.
  assert (x = 0 ∨ 0 < x)%N as [->|?] by lia.
  - by rewrite pretty_N_go_0.
  - rewrite pretty_N_go_step by done. apply IH.
    { by apply N.div_lt. }
    cbn. rewrite Hs. unfold pretty_N_char. by repeat case_match.
Qed.

Lemma pretty_N_no_sep (x : N) : no_sep (pretty x) = true.
Proof.
  unfold pretty, pretty_N. case_decide; [done|].
  by apply pretty_N_go_no_sep.
Qed.

Lemma pretty_Z_no_sep (x : Z) : no_sep (pretty x) = true.
Proof.
  unfold pretty, pretty_Z. destruct x; [done| |]; cbn;
    apply pretty_N_no_sep.
Qed.

Lemma sep_split s1 : ∀ s2 t1 t2,
  no_sep s1 = true → no_sep s2 = true →
  s1 +:+ "_" +:+ t1 = s2 +:+ "_" +:+ t2 → s1 = s2 ∧ t1 = t2.
Proof.
  induction s1 as [|c s1 IH]; intros [|d s2] t1 t2 H1 H2 E;
    simpl in E, H1, H2.
  - injection E as E. by subst.
  - injection E as Ec _. subst d. by rewrite Ascii.eqb_refl in H2.
  - injection E as Ec _. subst c. by rewrite Ascii.eqb_refl in H1.
  - injection E as Ec E. subst d.
    apply andb_true_iff in H1 as [_ H1].
    apply andb_true_iff in H2 as [_ H2].
    destruct (IH s2 t1 t2 H1 H2 E) as [-> ->]. done.
Qed.

Lemma make_job_id_eq ms1 ms2 (n1 n2 : nat) :
  make_job_id ms1 n1 = make_job_id ms2 n2 → ms1 = ms2 ∧ n1 = n2.
Proof.
  unfold make_job_id. intros E. apply (inj (String.append "job_")) in E.
  apply sep_split in E as [E1 E2]; [|apply pretty_Z_no_sep..].
  split; [by apply (inj pretty) in E1 | by apply (inj pretty) in E2].
Qed.

(** X13. The job id determines the millisecond and the queue length it
    was built from: two ids are equal exactly when both agree (so two jobs
    built in the same millisecond at the same queue length share their
    id). *)
Theorem make_job_id_inj (ms1 ms2 : Z) (n1 n2 : nat) :
  make_job_id ms1 n1 = make_job_id ms2 n2 ↔ ms1 = ms2 ∧ n1 = n2.
Proof. split; [apply make_job_id_eq | by intros [-> ->]]. Qed.

(** ** The entries a request registers *)


Lemma registering_errors env w0 st errs :
  registering env w0 st →
  registering env w0 (SubmitState (ss_world st) (ss_job_ids st) errs).
Proof. done. Qed.




(** ** List pages that fail *)


(** ** One entry per url *)



(** ** List pages *)

Ltac elems :=
  repeat first [ rewrite elem_of_app | rewrite elem_of_cons
               | rewrite elem_of_nil | rewrite list_elem_of_singleton ].

Lemma dict_fromkeys_acc (l : list string) : ∀ keys,
  NoDup keys →
  let r := foldl (λ keys x, if decide (x ∈ keys) then keys else keys ++ [x])%list
                 keys l in
  NoDup r ∧ (∀ x, x ∈ r ↔ x ∈ keys ∨ x ∈ l)
  ∧ ∃ new, r = (keys ++ new)%list ∧ sublist new l.
Proof.
  induction l as [|y l IH]; intros keys Hk; cbn zeta.
  - cbn. split; [done|]. split; [intros x; elems; tauto|].
    exists []. by rewrite app_nil_r.
  - cbn [foldl]. destruct (decide (y ∈ keys)) as [Hy|Hy].
    + destruct (IH keys Hk) as (H1 & H2 & new & H3 & H4).
      split; [done|].
      split; [intros x; rewrite H2; elems; intuition (subst; auto)|].
      exists new. split; [done|]. by apply sublist_cons.
    + destruct (IH (keys ++ [y])%list) as (H1 & H2 & new & H3 & H4).
      { apply NoDup_app. split; [done|].
        split; [intros x Hx Hx'; apply list_elem_of_singleton in Hx'; by subst|].
        apply NoDup_singleton. }
      split; [done|].
      split; [intros x; rewrite H2; elems; intuition (subst; auto)|].
      exists (y :: new). split; [by rewrite H3, <- app_assoc|].
      by apply sublist_skip.
Qed.

(** X18. [list(dict.fromkeys(l))] has no duplicate, has exactly the
    elements of [l], keeps them in the order of [l] (it is a subsequence
    of [l]), and changes nothing in a list without duplicates. *)
Theorem dict_fromkeys_dedupes (l : list string) :
  NoDup (dict_fromkeys l)
  ∧ (∀ x, x ∈ dict_fromkeys l ↔ x ∈ l)
  ∧ sublist (dict_fromkeys l) l
  ∧ (NoDup l → dict_fromkeys l = l)
  ∧ dict_fromkeys (dict_fromkeys l) = dict_fromkeys l.
Proof.
  assert (∀ l keys : list string, NoDup (keys ++ l) →
            foldl (λ keys x, if decide (x ∈ keys) then keys
                             else keys ++ [x])%list keys l
            = (keys ++ l)%list) as Hid.
  { clear l. induction l as [|y l IH]; intros keys Hn; cbn.
    - by rewrite app_nil_r.
    - apply NoDup_app in Hn as Hn'. destruct Hn' as (_ & Hd & _).
      rewrite decide_False by (intros Hy; apply (Hd y Hy), elem_of_cons; auto).
      rewrite IH; [by rewrite <- app_assoc|]. by rewrite <- app_assoc. }
  destruct (dict_fromkeys_acc l [] (NoDup_nil_2))
    as (H1 & H2 & new & H3 & H4).
  fold (dict_fromkeys l) in H1, H2, H3.
  split; [done|]. split; [intros x; rewrite H2; elems; tauto|].
  split; [by rewrite H3|].
  split; intros; apply (Hid _ []); done.
Qed.






(** ** The retry loop *)

Lemma retry_loop_stop {J} (api : nat → api_outcome J) fuel rc calls sleeps :
  ¬ rate_limited (api calls) →
  retry_loop api (S fuel) rc calls sleeps
  = ApiTrace (final_result (api calls)) (S calls) sleeps.
Proof.
  intros H. cbn. destruct (api calls) as [j|e|e]; cbn in *; try done.
  by destruct (is_rate_limit e).
Qed.

Lemma retry_loop_retry {J} (api : nat → api_outcome J) fuel rc calls sleeps :
  rate_limited (api calls) →
  retry_loop api (S fuel) rc calls sleeps
  = if (max_retries <=? S rc)%nat
    then ApiTrace (Raises retries_exhausted) (S calls) sleeps
    else retry_loop api fuel (S rc) (S calls)
           (sleeps ++ [base_delay * 2 ^ Z.of_nat (S rc - 1)]).
Proof.
  intros H. cbn [retry_loop]. destruct (api calls) as [j|e|e]; cbn in *;
    try done. by rewrite H.
Qed.

Lemma backoff_next rc :
  (rc < 4)%nat →
  (take rc backoff ++ [base_delay * 2 ^ Z.of_nat (S rc - 1)])%list
  = take (S rc) backoff.
Proof.
  intros H. do 4 (destruct rc as [|rc]; [reflexivity|]). lia.
Qed.

Lemma retry_loop_spec {J} (api : nat → api_outcome J) (fuel : nat) :
  ∀ rc, (fuel + rc = 5)%nat → (1 ≤ fuel)%nat →
  (∀ k, (k < rc)%nat → rate_limited (api k)) →
  let t := retry_loop api fuel rc rc (take rc backoff) in
  (1 ≤ at_calls t ≤ 5)%nat
  ∧ at_sleeps t = take (at_calls t - 1) backoff
  ∧ (∀ k, (k < at_calls t - 1)%nat → rate_limited (api k))
  ∧ (if decide (rate_limited (api (at_calls t - 1)%nat))
     then at_calls t = 5%nat ∧ at_result t = Raises retries_exhausted
     else at_result t = final_result (api (at_calls t - 1)%nat)).
Proof.
  induction fuel as [|fuel IH]; intros rc Hsum Hfuel Hpre; [lia|].
  cbn zeta.
  destruct (decide (rate_limited (api rc))) as [Hrc|Hrc].
  - rewrite retry_loop_retry by done.
    destruct (Nat.leb_spec max_retries (S rc)) as [Hle|Hlt];
      unfold max_retries in *.
    + cbn [at_calls at_sleeps at_result].
      replace (S rc - 1)%nat with rc by lia.
      rewrite decide_True by done. repeat split; try done; lia.
    + rewrite backoff_next by lia.
      apply IH; [lia|lia|].
      intros k Hk. destruct (decide (k = rc)) as [->|]; [done|].
      apply Hpre. lia.
  - rewrite retry_loop_stop by done.
    cbn [at_calls at_sleeps at_result].
    replace (S rc - 1)%nat with rc by lia.
    rewrite decide_False by done. repeat split; try done; lia.
Qed.

(** X16. [_generate_article_data] calls the API at most five times. It
    retries only an exception whose message marks a rate limit, after
    sleeping 10, 20, 40 and 80 seconds in turn; the first call that is not
    such an exception decides (its JSON is returned, its exception
    re-raised, a JSON error included); five rate-limit exceptions in a row
    raise the "retried five times" exception after those four sleeps (so
    the [raise] after the loop is never reached). *)
Theorem generate_article_data_retries {J} (api : nat → api_outcome J) :
  let t := generate_article_data api in
  (1 ≤ at_calls t ≤ 5)%nat
  ∧ at_sleeps t = take (at_calls t - 1) backoff
  ∧ (∀ k, (k < at_calls t - 1)%nat → rate_limited (api k))
  ∧ (if decide (rate_limited (api (at_calls t - 1)%nat))
     then at_calls t = 5%nat ∧ at_result t = Raises retries_exhausted
     else at_result t = final_result (api (at_calls t - 1)%nat)).
Proof.
  apply (retry_loop_spec api 5 0); [done|lia|]. intros k Hk. lia.
Qed.

(** ** The categories sent *)


(** ** The stats shown *)

(** X22. What a client is told agrees with what the process holds, in
    every run: ['active_jobs'] is the number of jobs handed to the executor
    that have not ended, ['processing'] is true exactly when there is one,
    ['queue_length'] and the jobs handed over so far add up to the jobs
    appended, no window of the usage shown is overdue at the time of the
    request, and the globals are left as the [StatsRequest] action leaves
    them. *)
Theorem stats_agree_with_executor (now : Z) (st : settings_t)
    (acts : list action) (t : Z) :
  let s := exec acts (init_sys now st) in
  let shown := (handle_stats_request t (globals s)).1 in
  st_active_jobs shown = Z.of_nat (length (pool s))
  ∧ (st_processing shown = true ↔ pool s ≠ [])
  ∧ (st_queue_length shown + length (dispatched s))%nat
    = length (enqueued acts)
  ∧ st_concurrent_limit shown = concurrent_jobs (settings (globals s))
  ∧ (∀ p, ¬ overdue t p (st_token_usage shown))
  ∧ (handle_stats_request t (globals s)).2 = globals (step s (StatsRequest t)).
Proof.
  cbn zeta. set (s := exec acts (init_sys now st)).
  assert (counted s) as Hc.
  { apply (exec_invariant counted (λ _, True)).
    - intros s' a _. apply counted_step.
    - by apply Forall_true.
    - done. }
  unfold counted in Hc.
  pose proof (job_history_exec acts (init_sys now st)) as Hh.
  fold s in Hh. unfold job_history in Hh. cbn in Hh.
  apply (f_equal length) in Hh. rewrite length_app, length_map in Hh.
  unfold handle_stats_request; cbn.
  split; [done|]. split; [|split; [lia|split; [done|split; [|done]]]].
  - rewrite Hc. destruct (pool s); cbn; [done|].
    split; [done|intros _; apply Z.ltb_lt; lia].
  - intros p. unfold overdue.
    destruct p; cbn;
      match goal with |- ¬ (?x * _ ≤ _ - w_timestamp (reset_if _ _ ?y)) =>
        pose proof (reset_if_fresh t x y) end; lia.
Qed.

(** ** The category list *)

Lemma fetch_pages_spec reply pages : ∀ fuel page acc,
  (∀ i cs, pages !! i = Some cs → cs ≠ [] ∧ reply (page + i)%nat = PageOk cs) →
  (length pages < fuel)%nat →
  fetch_pages reply fuel page acc
  = match reply (page + length pages)%nat with
    | PageOk [] | PageStatus => Some (Returns (acc ++ concat pages)%list)
    | PageRaises e => Some (Raises e)
    | PageOk _ =>
        fetch_pages reply (fuel - length pages) (page + length pages)
                    (acc ++ concat pages)
    end.
Proof.
  induction pages as [|cs pages IH]; intros fuel page acc Hp Hf.
  - cbn [length concat]. rewrite Nat.add_0_r, Nat.sub_0_r, app_nil_r.
    destruct fuel as [|fuel]; [cbn in Hf; lia|]. cbn.
    by destruct (reply page) as [[|c cs]| |e].
  - destruct fuel as [|fuel]; [cbn in Hf; lia|].
    destruct (Hp 0%nat cs eq_refl) as [Hne H0].
    rewrite Nat.add_0_r in H0. cbn [fetch_pages]. rewrite H0.
    destruct cs as [|c cs]; [done|].
    rewrite IH.
    + cbn [length concat]. rewrite <- Nat.add_succ_comm, <- app_assoc. done.
    + intros i cs' Hi. rewrite Nat.add_succ_comm. by apply (Hp (S i)).
    + cbn in Hf. lia.
Qed.

(** X23. [get_all_categories].  With a cache it returns the cache and asks
    nothing.  Without, it asks for page 1, 2, ... and stops at the first
    page that is empty, has another status than 200 or raises: after an
    empty page or another status it returns the pages before, in order, and
    caches them (so a list cut short by an error status is what every later
    call returns); after an exception it returns the empty list, drops the
    pages before and caches nothing. *)
Theorem get_all_categories_pages (reply : nat → page_reply)
    (pages : list (list category)) (fuel : nat) :
  serves reply pages →
  (length pages < fuel)%nat →
  match reply (S (length pages)) with
  | PageOk [] | PageStatus =>
      get_all_categories reply fuel None
      = Some (concat pages, Some (concat pages))
      ∧ ∀ reply' fuel',
          get_all_categories reply' fuel' (Some (concat pages))
          = Some (concat pages, Some (concat pages))
  | PageRaises e => get_all_categories reply fuel None = Some ([], None)
  | PageOk (_ :: _) => True
  end.
Proof.
  intros Hs Hf. unfold get_all_categories.
  rewrite (fetch_pages_spec reply pages fuel 1 []); [|done..].
  change (1 + length pages)%nat with (S (length pages)).
  by destruct (reply (S (length pages))) as [[|c cs]| |e].
Qed.

(** ** The category tree *)

Lemma category_map_from_spec rest : ∀ i m0 k p,
  category_map_from i rest m0 !! k = Some p →
  (m0 !! k = Some p ∧ ∀ c, c ∈ rest → cat_id c ≠ k)
  ∨ (i ≤ p < i + length rest)%nat ∧ (cat_id <$> rest !! (p - i)%nat) = Some k.
Proof.
  induction rest as [|cat rest IH]; intros i m0 k p; cbn.
  - intros H. left. split; [done|]. by intros c Hc%elem_of_nil.
  - intros H. apply IH in H as [[H Hn]|[Hr Hk]].
    + destruct (decide (cat_id cat = k)) as [<-|Hne].
      * rewrite lookup_insert_eq in H. injection H as <-.
        right. split; [lia|]. by rewrite Nat.sub_diag.
      * rewrite lookup_insert_ne in H by done. left. split; [done|].
        intros c [->|Hc]%elem_of_cons; auto.
    + right. split; [lia|].
      replace (p - i)%nat with (S (p - S i)) by lia. done.
Qed.

Lemma category_map_bound categories k p :
  category_map categories !! k = Some p → (p < length categories)%nat.
Proof.
  intros H. apply category_map_from_spec in H as [[H _]|[H _]].
  - by rewrite lookup_empty in H.
  - lia.
Qed.

(** The graph in closed form. *)
Lemma attach_from_spec categories rest : ∀ pre g,
  categories = (pre ++ rest)%list →
  length (children g) = length categories →
  let g' := attach_from (category_map categories) (length pre) rest g in
  category_tree g'
  = (category_tree g
     ++ filter (λ j, is_root categories j = true)
               (seq (length pre) (length rest)))%list
  ∧ length (children g') = length categories
  ∧ ∀ p, (p < length categories)%nat →
      default [] (children g' !! p)
      = (default [] (children g !! p)
         ++ filter (λ j, child_of categories p j = true)
                   (seq (length pre) (length rest)))%list.
Proof.
  set (m := category_map categories).
  induction rest as [|cat rest IH]; intros pre g Hcat Hlen; cbn zeta.
  - cbn. rewrite !app_nil_r. split; [done|]. split; [done|].
    intros p _. by rewrite app_nil_r.
  - cbn [attach_from length seq].
    assert (categories !! length pre = Some cat) as Hj.
    { rewrite Hcat. by rewrite list_lookup_middle. }
    specialize (IH (pre ++ [cat])%list (attach m g (length pre) cat)).
    rewrite length_app in IH. cbn [length] in IH.
    rewrite Nat.add_1_r in IH.
    destruct IH as (IH1 & IH2 & IH3).
    { by rewrite <- app_assoc. }
    { unfold attach. destruct (_ =? _); [done|].
      destruct (m !! _); [|done]. cbn. by rewrite length_alter. }
    assert (is_root categories (length pre) = (parent_id cat =? 0))
      as Hroot by (unfold is_root; by rewrite Hj).
    assert (∀ p, child_of categories p (length pre) = true
                 ↔ (parent_id cat =? 0) = false
                   ∧ m !! parent_id cat = Some p) as Hchild.
    { intros p. unfold child_of, parent_of. rewrite bool_decide_eq_true, Hj.
      cbn. fold m. destruct (parent_id cat =? 0); [|tauto].
      split; [done|]. by intros [? _]. }
    split; [|split; [done|]].
    + rewrite IH1. unfold attach.
      destruct (parent_id cat =? 0) eqn:Hp.
      * rewrite filter_cons_True by done. cbn. by rewrite <- app_assoc.
      * rewrite filter_cons_False by (rewrite Hroot; done).
        by destruct (m !! parent_id cat).
    + intros p Hp. rewrite IH3 by done. unfold attach.
      destruct (parent_id cat =? 0) eqn:Hz.
      * rewrite filter_cons_False; [done|]. rewrite Hchild. by intros [? _].
      * destruct (m !! parent_id cat) as [q|] eqn:Hq; cbn [children].
        -- destruct (decide (q = p)) as [->|Hne].
           ++ rewrite filter_cons_True by (by apply Hchild).
              rewrite list_lookup_alter, decide_True by done.
              destruct (children g !! p) eqn:Hc; cbn.
              ** by rewrite <- app_assoc.
              ** apply lookup_ge_None in Hc. lia.
           ++ rewrite filter_cons_False
                by (rewrite Hchild; intros [_ ?]; congruence).
              by rewrite list_lookup_alter_ne.
        -- rewrite filter_cons_False; [done|].
           rewrite Hchild. by intros [_ ?].
Qed.

Lemma parent_of_bound categories j p :
  parent_of categories j = Some p → (p < length categories)%nat.
Proof.
  unfold parent_of. destruct (categories !! j) as [cat|]; cbn; [|done].
  destruct (parent_id cat =? 0); [done|]. apply category_map_bound.
Qed.

Lemma build_forest_spec categories :
  let g := build_forest categories in
  category_tree g
  = filter (λ j, is_root categories j = true) (seq 0 (length categories))
  ∧ ∀ p, default [] (children g !! p)
         = filter (λ j, child_of categories p j = true)
                  (seq 0 (length categories)).
Proof.
  cbn zeta. unfold build_forest.
  destruct (attach_from_spec categories categories []
              (Forest [] (replicate (length categories) [])) eq_refl)
    as (H1 & H2 & H3).
  { cbn. apply length_replicate. }
  cbn [length app category_tree children] in H1, H2, H3.
  split; [done|]. intros p.
  destruct (decide (p < length categories)%nat) as [Hp|Hp].
  - rewrite H3 by done. by rewrite lookup_replicate_2.
  - rewrite (proj2 (lookup_ge_None _ _)) by lia.
    symmetry. apply elem_of_nil_inv. intros j [Hj _]%list_elem_of_filter.
    unfold child_of in Hj. apply bool_decide_eq_true in Hj.
    apply parent_of_bound in Hj. lia.
Qed.

Lemma is_root_bound categories r :
  is_root categories r = true → (r < length categories)%nat.
Proof.
  unfold is_root. destruct (categories !! r) eqn:H; [|done].
  intros _. by apply lookup_lt_Some in H.
Qed.

Lemma parent_of_child categories j p :
  parent_of categories j = Some p →
  (j < length categories)%nat ∧ is_root categories j = false.
Proof.
  unfold parent_of, is_root. destruct (categories !! j) eqn:H; cbn; [|done].
  apply lookup_lt_Some in H. by destruct (parent_id _ =? 0).
Qed.

Lemma chain_bound categories l :
  chain categories l → Forall (λ i, (i < length categories)%nat) l.
Proof.
  induction 1 as [r Hr|j p rest _ IH Hp].
  - constructor; [by apply is_root_bound|constructor].
  - constructor; [|done]. by apply parent_of_child in Hp as [? _].
Qed.

Lemma chain_det categories l1 : ∀ l2 i l1',
  l1 = i :: l1' → chain categories l1 → chain categories (i :: l2) →
  l1' = l2.
Proof.
  intros l2 i l1' E H. revert l2 i l1' E.
  induction H as [r Hr|j p rest H IH Hp]; intros l2 i l1' E H2;
    injection E as <- <-; inversion H2 as [r' Hr'|j' p' rest' H' Hp']; subst.
  - done.
  - apply parent_of_child in Hp' as [_ Hp']. congruence.
  - apply parent_of_child in Hp as [_ Hp]. congruence.
  - assert (p' = p) as -> by congruence. f_equal. by eapply IH.
Qed.

Lemma chain_suffix categories a : ∀ x b,
  chain categories (a ++ x :: b) → chain categories (x :: b).
Proof.
  induction a as [|y a IH]; intros x b H; [done|].
  apply IH. cbn in H. inversion H as [r Hr [Ey E]|j p rest H' Hp [Ey E]].
  - by destruct a.
  - exact H'.
Qed.

Lemma chain_NoDup categories l : chain categories l → NoDup l.
Proof.
  induction 1 as [r Hr|j p rest H IH Hp]; [apply NoDup_singleton|].
  constructor; [|done]. intros Hin.
  apply list_elem_of_split in Hin as (a & b & E).
  assert (chain categories (j :: b)) as Hb.
  { apply (chain_suffix categories a). by rewrite <- E. }
  assert (p :: rest = b) as Eb.
  { eapply (chain_det categories (j :: p :: rest)); [done| |done].
    by constructor. }
  apply (f_equal length) in E. rewrite Eb, length_app in E. cbn in E. lia.
Qed.

Lemma chain_length categories l :
  chain categories l → (length l ≤ length categories)%nat.
Proof.
  intros H. rewrite <- (length_seq (length categories) 0%nat).
  apply submseteq_length, NoDup_submseteq; [by eapply chain_NoDup|].
  intros i Hi. apply elem_of_seq.
  pose proof (chain_bound categories l H) as Hb.
  rewrite Forall_forall in Hb. apply Hb in Hi. lia.
Qed.

(** Enough fuel for a category that hangs [length l] levels below a
    root. *)
Lemma unfold_tree_some categories fuel : ∀ i l,
  chain categories (i :: l) →
  (length categories ≤ fuel + length l)%nat →
  is_Some (unfold_tree categories (build_forest categories) fuel i).
Proof.
  induction fuel as [|fuel IH]; intros i l Hc Hf.
  - apply chain_length in Hc. cbn in Hc, Hf. lia.
  - cbn [unfold_tree].
    pose proof (chain_bound categories _ Hc) as Hb.
    apply Forall_cons in Hb as [Hi _].
    apply lookup_lt_is_Some in Hi as [cat Hcat]. rewrite Hcat. cbn.
    destruct (build_forest_spec categories) as [_ Hch]. rewrite Hch.
    assert (is_Some (mapM (unfold_tree categories (build_forest categories)
                             fuel)
                          (filter (λ j, child_of categories i j = true)
                                  (seq 0%nat (length categories))))) as [ts Hts].
    { apply mapM_is_Some, Forall_forall. intros j [Hj _]%list_elem_of_filter.
      apply bool_decide_eq_true in Hj. cbn.
      apply (IH j (i :: l)); [by constructor|cbn; lia]. }
    rewrite Hts. by eexists.
Qed.

Lemma unfold_tree_S categories g fuel i :
  unfold_tree categories g (S fuel) i
  = (cat ← categories !! i;
     subtrees ← mapM (unfold_tree categories g fuel)
                     (default [] (children g !! i));
     Some (Node cat subtrees)).
Proof. reflexivity. Qed.

(** More fuel changes nothing. *)
Lemma unfold_tree_mono categories g fuel : ∀ i t,
  unfold_tree categories g fuel i = Some t →
  unfold_tree categories g (S fuel) i = Some t.
Proof.
  induction fuel as [|fuel IH]; intros i t; [done|].
  intros H. rewrite unfold_tree_S in H. rewrite (unfold_tree_S _ _ (S fuel)).
  destruct (categories !! i) as [cat|]; [|done].
  cbn [mbind option_bind] in H |- *.
  destruct (mapM (unfold_tree categories g fuel) _) as [ts|] eqn:Hts;
    [|done].
  cbn [mbind option_bind] in H. injection H as <-.
  apply mapM_Some in Hts.
  assert (mapM (unfold_tree categories g (S fuel))
               (default [] (children g !! i)) = Some ts) as ->; [|done].
  apply mapM_Some. eapply Forall2_impl; [done|]. intros j t. apply IH.
Qed.

Lemma unfold_tree_more categories g fuel fuel' i t :
  (fuel ≤ fuel')%nat →
  unfold_tree categories g fuel i = Some t →
  unfold_tree categories g fuel' i = Some t.
Proof.
  induction 1 as [|fuel' _ IH]; [done|].
  intros H. by apply unfold_tree_mono, IH.
Qed.

Lemma root_cat_unfold categories g fuel i t :
  unfold_tree categories g fuel i = Some t →
  categories !! i = Some (root_cat t).
Proof.
  destruct fuel as [|fuel]; [done|]. cbn.
  destruct (categories !! i) as [cat|]; [|done]. cbn.
  destruct (mapM _ _); [|done]. cbn. by intros [= <-].
Qed.

(** X24. [get_categories] always answers a finite tree, whatever ids and
    parents the categories have (the unfolding from the roots never runs
    into a cycle: the depth never exceeds the number of categories, and
    more depth changes nothing); its top level is the categories whose
    parent is 0 or missing, in the order of the list. *)
Theorem get_categories_tree (categories : list category) :
  ∃ trees,
    get_categories categories = Some trees
    ∧ (∀ fuel, (length categories ≤ fuel)%nat →
         get_categories_at fuel categories = Some trees)
    ∧ map root_cat trees
      = filter (λ cat, parent_id cat = 0) categories.
Proof.
  unfold get_categories, get_categories_at.
  destruct (build_forest_spec categories) as [Hroots _].
  set (g := build_forest categories) in *.
  assert (is_Some (mapM (unfold_tree categories g (length categories))
                        (category_tree g))) as [trees Ht].
  { apply mapM_is_Some, Forall_forall. rewrite Hroots.
    intros r [Hr _]%list_elem_of_filter. cbn.
    apply (unfold_tree_some categories _ r []); [by constructor|cbn; lia]. }
  exists trees. split; [done|]. apply mapM_Some in Ht. split.
  - intros fuel Hf. apply mapM_Some. eapply Forall2_impl; [done|].
    intros i t. by apply unfold_tree_more.
  - rewrite Hroots in Ht. clear Hroots.
    assert (∀ k, Forall2 (λ i t, unfold_tree categories g
                                   (length categories) i = Some t)
                   (filter (λ j, is_root categories j = true)
                           (seq k (length categories - k))) trees →
                 map root_cat trees
                 = filter (λ cat, parent_id cat = 0) (drop k categories))
      as Hgen.
    2:{ specialize (Hgen 0%nat). rewrite Nat.sub_0_r in Hgen. by apply Hgen. }
    clear Ht. intros k. remember (length categories - k)%nat as d eqn:Hd.
    revert k Hd trees. induction d as [|d IH]; intros k Hd trees Ht.
    + cbn in Ht. inversion Ht. rewrite drop_ge by lia. done.
    + assert (k < length categories)%nat as Hk by lia.
      apply lookup_lt_is_Some in Hk as [cat Hcat].
      rewrite (drop_S _ _ _ Hcat). cbn [seq] in Ht.
      assert (is_root categories k = (parent_id cat =? 0)) as Hroot
        by (unfold is_root; by rewrite Hcat).
      destruct (parent_id cat =? 0) eqn:Hz.
      * rewrite filter_cons_True in Ht by done.
        rewrite filter_cons_True by (by apply Z.eqb_eq).
        inversion Ht as [|i t l ts Hi Hrest]; subst. cbn.
        apply root_cat_unfold in Hi. rewrite Hcat in Hi. injection Hi as <-.
        f_equal. apply (IH (S k)); [lia|done].
      * rewrite filter_cons_False in Ht by (rewrite Hroot; done).
        rewrite filter_cons_False by (by apply Z.eqb_neq).
        apply (IH (S k)); [lia|done].
Qed.

(** X25. Where a category ends up.  It is in [category_tree] exactly when
    its parent is 0 or missing; it is in the ['children'] of the category
    [category_map] holds for its parent id (the last one with that id)
    and of no other; no list holds it twice.  A category whose parent id
    is neither 0 nor the id of a category is in no list: it is dropped from
    the answer, with everything below it. *)
Theorem category_placement (categories : list category) (j : nat) :
  let g := build_forest categories in
  let kids p := default [] (children g !! p) in
  (j ∈ category_tree g ↔ is_root categories j = true)
  ∧ (∀ p, j ∈ kids p ↔ parent_of categories j = Some p)
  ∧ NoDup (category_tree g)
  ∧ (∀ p, NoDup (kids p))
  ∧ (∀ p, j ∈ category_tree g → j ∉ kids p)
  ∧ (is_root categories j = false → parent_of categories j = None →
     (j ∉ category_tree g) ∧ ∀ p, j ∉ kids p).
Proof.
  cbn zeta. destruct (build_forest_spec categories) as [Hroots Hkids].
  rewrite Hroots. 
  assert (∀ p, j ∈ default [] (children (build_forest categories) !! p)
               ↔ parent_of categories j = Some p) as Hk.
  { intros p. rewrite Hkids, list_elem_of_filter.
    unfold child_of. rewrite bool_decide_eq_true, elem_of_seq.
    split; [by intros [? _]|]. intros H. split; [done|].
    apply parent_of_child in H as [? _]. lia. }
  assert (j ∈ filter (λ j, is_root categories j = true)
                     (seq 0%nat (length categories))
          ↔ is_root categories j = true) as Hr.
  { rewrite list_elem_of_filter, elem_of_seq.
    split; [by intros [? _]|]. intros H. split; [done|].
    apply is_root_bound in H. lia. }
  split; [done|]. split; [done|].
  split; [apply NoDup_filter, NoDup_seq|].
  split; [intros p; rewrite Hkids; apply NoDup_filter, NoDup_seq|].
  split.
  - intros p Hj Hp. apply Hr in Hj. apply Hk in Hp.
    apply parent_of_child in Hp as [_ Hp]. congruence.
  - intros Hnr Hnp. split.
    + rewrite Hr. congruence.
    + intros p Hp. apply Hk in Hp. congruence.
Qed.

(** ** The matched category ids *)

Lemma add_id_spec (id : Z) (ids : list Z) :
  let ids' := if decide (id ∈ ids) then ids else (ids ++ [id])%list in
  (∃ new, ids' = (ids ++ new)%list)
  ∧ (NoDup ids → NoDup ids')
  ∧ id ∈ ids'
  ∧ ∀ x, x ∈ ids' → x ∈ ids ∨ x = id.
Proof.
  cbn zeta. destruct (decide (id ∈ ids)) as [Hin|Hin].
  - split; [by exists []; rewrite app_nil_r|]. by repeat split; auto.
  - split; [by eexists|]. split; [|split].
    + intros Hnd. apply NoDup_app. split; [done|]. split.
      * intros x Hx Hx'%list_elem_of_singleton. by subst.
      * apply NoDup_singleton.
    + apply elem_of_app. right. by apply list_elem_of_singleton.
    + intros x [Hx|Hx%list_elem_of_singleton]%elem_of_app; auto.
Qed.

Lemma add_category_with_parents_spec all_categories fuel : ∀ cat ids ids',
  add_category_with_parents all_categories fuel cat ids = Some ids' →
  added all_categories [cat] ids ids'
  ∧ ∃ n, (n < fuel)%nat ∧ height all_categories cat n.
Proof.
  induction fuel as [|fuel IH]; intros cat ids ids'; [done|].
  cbn [add_category_with_parents].
  destruct (add_id_spec (cat_id cat) ids) as ([new Hnew] & Hnd & Hin & Honly).
  set (ids1 := if decide (cat_id cat ∈ ids) then ids
               else (ids ++ [cat_id cat])%list) in *.
  destruct (parent_cat all_categories cat) as [parent|] eqn:Hp.
  - intros H. apply IH in H as [[[new' Hnew'] Hnd' Hin' Honly'] (n & Hn & Hh)].
    split; [split|].
    + exists (new ++ new')%list. by rewrite Hnew', Hnew, <- app_assoc.
    + auto.
    + intros c k d ->%list_elem_of_singleton Hk. destruct k as [|k].
      * cbn in Hk. injection Hk as <-. rewrite Hnew'.
        apply elem_of_app. by left.
      * cbn in Hk. rewrite Hp in Hk. cbn in Hk.
        apply (Hin' parent k d); [by apply list_elem_of_singleton|done].
    + intros id Hid. apply Honly' in Hid as [Hid|(c & k & d & Hc & Hk & Hd)].
      * apply Honly in Hid as [Hid| ->]; [by left|]. right.
        exists cat, 0%nat, cat. split; [by apply list_elem_of_singleton|done].
      * apply list_elem_of_singleton in Hc as ->. right.
        exists cat, (S k), d. split; [by apply list_elem_of_singleton|].
        split; [|done]. cbn. by rewrite Hp.
    + exists (S n). split; [lia|]. destruct Hh as (top & Ht & Htop).
      exists top. split; [|done]. cbn. by rewrite Hp.
  - intros [= <-]. split; [split|].
    + by exists new.
    + done.
    + intros c k d ->%list_elem_of_singleton Hk. destruct k as [|k].
      * cbn in Hk. by injection Hk as <-.
      * cbn in Hk. by rewrite Hp in Hk.
    + intros id Hid. apply Honly in Hid as [Hid| ->]; [by left|]. right.
      exists cat, 0%nat, cat. split; [by apply list_elem_of_singleton|done].
    + exists 0%nat. split; [lia|]. by exists cat.
Qed.

Lemma add_all_spec all_categories fuel cats : ∀ ids ids',
  add_all all_categories fuel cats ids = Some ids' →
  added all_categories cats ids ids'
  ∧ ∀ c, c ∈ cats → ∃ n, (n < fuel)%nat ∧ height all_categories c n.
Proof.
  induction cats as [|cat cats IH]; intros ids ids'; cbn [add_all].
  - intros [= <-]. split; [split|].
    + by exists []; rewrite app_nil_r.
    + done.
    + by intros c n d Hc%elem_of_nil.
    + by left.
    + by intros c Hc%elem_of_nil.
  - destruct (add_category_with_parents all_categories fuel cat ids)
      as [ids1|] eqn:H1; [|done]. cbn.
    intros H2.
    apply add_category_with_parents_spec in H1
      as [[[new1 Hn1] Hnd1 Hin1 Honly1] Hh1].
    apply IH in H2 as [[[new2 Hn2] Hnd2 Hin2 Honly2] Hh2].
    split; [split|].
    + exists (new1 ++ new2)%list. by rewrite Hn2, Hn1, <- app_assoc.
    + auto.
    + intros c n d [->|Hc]%elem_of_cons Hn.
      * rewrite Hn2. apply elem_of_app. left.
        apply (Hin1 cat n d); [by apply list_elem_of_singleton|done].
      * by apply (Hin2 c n d).
    + intros id Hid.
      apply Honly2 in Hid as [Hid|(c & k & d & Hc & Hk & Hd)].
      * apply Honly1 in Hid as [Hid|(c & k & d & Hc & Hk & Hd)];
          [by left|].
        apply list_elem_of_singleton in Hc as ->. right.
        exists cat, k, d. split; [apply elem_of_cons; by left|done].
      * right. exists c, k, d. split; [apply elem_of_cons; by right|done].
    + intros c [->|Hc]%elem_of_cons; [done|by apply Hh2].
Qed.

Lemma add_category_with_parents_some all_categories fuel : ∀ cat ids n,
  height all_categories cat n → (n < fuel)%nat →
  is_Some (add_category_with_parents all_categories fuel cat ids).
Proof.
  induction fuel as [|fuel IH]; intros cat ids n Hh Hn; [lia|].
  cbn [add_category_with_parents].
  destruct (parent_cat all_categories cat) as [parent|] eqn:Hp; [|by eexists].
  destruct Hh as (top & Ht & Htop). destruct n as [|n].
  - cbn in Ht. injection Ht as <-. congruence.
  - cbn in Ht. rewrite Hp in Ht. cbn in Ht.
    apply (IH parent _ n); [by exists top|lia].
Qed.

(** X26. The category ids [find_matching_categories] returns, given its
    matches.  Only the first region match and the first two genre matches
    are used.  When the recursion ends, the ids returned are pairwise
    distinct and are exactly the ids of the used matches and of the
    categories above them (parent, parent of the parent, ... as long as the
    parent id is above 0 and some category has it).  It ends exactly when
    every used match has finitely many categories above it, fewer than the
    recursion limit: a category that is its own parent, or any cycle of
    parents, exhausts every limit. *)
Theorem matched_ids_are_ancestors (all_categories : list category) (fuel : nat)
    (region_matches genre_matches : list category) :
  let used := used_matches region_matches genre_matches in
  let result :=
    collect_category_ids all_categories fuel region_matches genre_matches in
  (length used ≤ 3)%nat
  ∧ (∀ ids, result = Some ids →
       NoDup ids
       ∧ ∀ id, id ∈ ids ↔
           ∃ c n d, c ∈ used ∧ nth_parent all_categories n c = Some d
                    ∧ cat_id d = id)
  ∧ (is_Some result ↔
     ∀ c, c ∈ used → ∃ n, (n < fuel)%nat ∧ height all_categories c n)
  ∧ (∀ c, c ∈ used → parent_cat all_categories c = Some c → result = None).
Proof.
  cbn zeta. unfold collect_category_ids. split; [|split; [|split]].
  - unfold used_matches. rewrite length_app, !length_take. lia.
  - intros ids H. apply add_all_spec in H as [[_ Hnd Hin Honly] _].
    split; [apply Hnd, NoDup_nil_2|]. intros id. split.
    + intros Hid. apply Honly in Hid as [Hid%elem_of_nil|Hid]; done.
    + intros (c & n & d & Hc & Hn & <-). by apply (Hin c n d).
  - split.
    + intros [ids H]. by apply add_all_spec in H as [_ H].
    + generalize (used_matches region_matches genre_matches) (@nil Z).
      intros cats. induction cats as [|cat cats IH]; intros ids Hh;
        [by eexists|].
      cbn [add_all].
      destruct (Hh cat) as (n & Hn & Hcat); [apply elem_of_cons; by left|].
      destruct (add_category_with_parents_some all_categories fuel cat ids n
                  Hcat Hn) as [ids1 ->]. cbn.
      apply IH. intros c Hc. apply Hh, elem_of_cons. by right.
  - intros c Hc Hself.
    destruct (add_all _ _ _ _) as [ids|] eqn:H; [|done]. exfalso.
    apply add_all_spec in H as [_ H].
    destruct (H c Hc) as (n & _ & top & Hn & Htop).
    assert (∀ k, nth_parent all_categories k c = Some c) as Hk.
    { induction k as [|k IHk]; [done|]. cbn. by rewrite Hself. }
    rewrite Hk in Hn. injection Hn as <-. congruence.
Qed.

(** ** The command line *)



(** ** Concrete runs *)

Lemma rate_limit_blocks_dispatch_witness :
  articles_per_hour (settings stale_world)
    ≤ c_count (w_counters (u_hour (token_usage stale_world)))
  ∧ dispatched (exec (replicate 3 LoopStep) (Sys stale_world Sleeping [] []))
    = [].
Proof.
  assert (articles_per_hour (settings stale_world)
          ≤ c_count (w_counters (u_hour (token_usage stale_world)))) as H
    by (cbn; lia).
  split; [assumption|].
  exact (proj2 (proj2 (rate_limit_blocks_dispatch stale_world [] [] 3 H))).
Defined.

Lemma process_job_ends_terminal_witness :
  job_status demo_world !! "job_1_0" = Some demo_state
  ∧ ∃ s', job_status (demo_run env_ok).2 !! "job_1_0" = Some s'
      ∧ (js_status s' = Completed ∨ js_status s' = Error).
Proof.
  assert (job_status demo_world !! "job_1_0" = Some demo_state) as H1
    by (vm_compute; reflexivity).
  split; [assumption|].
  destruct (process_job_ends_terminal env_ok "job_1_0" demo_url None
              demo_world demo_state (demo_run env_ok).1 (demo_run env_ok).2
              H1 (surjective_pairing _))
    as (s' & Hs & Hst & _).
  exists s'. split; assumption.
Defined.

Lemma process_job_without_entry_witness :
  job_status (init_world 0 settings_init) !! "job_9_9" = None
  ∧ (process_job env_ok "job_9_9" demo_url None (init_world 0 settings_init)).1
    = Raises (KeyError "job_9_9").
Proof.
  assert (job_status (init_world 0 settings_init) !! "job_9_9" = None) as H
    by reflexivity.
  split; [assumption|].
  exact (f_equal fst (process_job_without_entry env_ok "job_9_9" demo_url
                        None (init_world 0 settings_init) H)).
Defined.


Lemma publish_failure_fails_job_witness :
  job_status demo_world !! "job_1_0" = Some demo_state
  ∧ (∀ n, emit_raises env_publish_fails n = None)
  ∧ scraper_init env_publish_fails = None
  ∧ scrape_result env_publish_fails = Returns (Some demo_restaurant)
  ∧ r_name demo_restaurant ≠ EmptyString
  ∧ 4 ≤ r_photo_count demo_restaurant
  ∧ publish_fails env_publish_fails "WordPress投稿に失敗しました"
  ∧ count_calls is_record (calls (demo_run env_publish_fails).2) = 1%nat.
Proof.
  assert (job_status demo_world !! "job_1_0" = Some demo_state) as H1
    by (vm_compute; reflexivity).
  assert (∀ n, emit_raises env_publish_fails n = None) as H2
    by (intros n; reflexivity).
  assert (r_name demo_restaurant ≠ EmptyString) as H3 by (cbn; discriminate).
  assert (4 ≤ r_photo_count demo_restaurant) as H4 by (cbn; lia).
  assert (publish_fails env_publish_fails "WordPress投稿に失敗しました") as H5
    by reflexivity.
  repeat (split; [first [assumption | reflexivity]|]).
  exact (proj2 (publish_failure_fails_job env_publish_fails "job_1_0"
                  demo_url None demo_world demo_state demo_restaurant
                  "WordPress投稿に失敗しました"
                  H1 H2 eq_refl eq_refl H3 H4 H5)).
Defined.




Lemma normalize_collapses_subpages_witness :
  restaurant_page demo_page
  ∧ normalize_restaurant_url (demo_page +:+ "/dtlphotolst/1/?smp=2")
    = demo_page +:+ "/".
Proof.
  assert (restaurant_page demo_page) as H.
  { split; [|split; vm_compute; repeat constructor].
    change (list_ascii_of_string demo_page)
      with (https ++ list_ascii_of_string "tabelog.com" ++ [slash]
            ++ list_ascii_of_string "tokyo" ++ [slash]
            ++ [cap_a] ++ list_ascii_of_string "1301" ++ [slash]
            ++ [cap_a] ++ list_ascii_of_string "130101" ++ [slash]
            ++ list_ascii_of_string "13000001")%list.
    apply Canonical; [by right|split; [discriminate|repeat constructor]..]. }
  split; [assumption|].
  exact (normalize_collapses_subpages demo_page "/dtlphotolst/1/?smp=2" H
           eq_refl).
Defined.

Lemma get_all_categories_pages_witness :
  serves demo_reply [[demo_category]]
  ∧ (length [[demo_category]] < 5)%nat
  ∧ get_all_categories demo_reply 5 None
    = Some ([demo_category], Some [demo_category]).
Proof.
  assert (serves demo_reply [[demo_category]]) as H1.
  { intros i cs H. destruct i as [|i]; cbn in H; [|discriminate H].
    injection H as <-. split; [discriminate|reflexivity]. }
  assert (length [[demo_category]] < 5)%nat as H2 by (cbn; lia).
  split; [assumption|]. split; [assumption|].
  exact (proj1 (get_all_categories_pages demo_reply [[demo_category]] 5
                  H1 H2)).
Defined.

